(** * Pincer's event manager ([pincer/utils/event_mgr.py])

    A shallow embedding of the wait manager: the matching contract shared by
    the two kinds of subscription, the one-shot [_DiscordEvent], the streaming
    [_LoopMgr], and [EventMgr] with [process_events], [wait_for] and
    [loop_for].

    Python objects live in a store indexed by object identity; the manager's
    [event_list] holds identities, so that the reference a suspended caller
    keeps and the entry of the registry denote the same mutable object.
    Coroutines are cut at their suspension points: what happens while a
    coroutine is suspended (the dispatches delivered, whether a deadline fires,
    whether the consumer is cancelled) is an explicit input. Time is counted in
    integral clock ticks. *)

From Stdlib Require Import ZArith String List Bool Lia.
From stdpp Require Import base option list gmap strings.
Import ListNotations.

Local Open Scope list_scope.

(** ** Values, exceptions and results *)

(** The opaque payload values an event carries. *)
Inductive value :=
| VNone
| VInt (n : Z)
| VStr (s : string).

#[export] Instance value_eq_dec : EqDecision value.
Proof. solve_decision. Defined.

(** [*args]: the ordered tuple of arguments of one event. *)
Definition Args := list value.

(** The exceptions the module raises or lets through. [UserError] stands for
    whatever a caller-supplied check function raises. *)
Inductive exn :=
| TimeoutError (msg : string)
| LoopEmptyError
| ValueError
| TypeError
| IndexError
| CancelledError
| GeneratorExit
| UserError (tag : string).

Inductive result (A : Type) :=
| Ok (a : A)
| Raise (e : exn).

Arguments Ok {A} a.
Arguments Raise {A} e.

(** Modelled from the spec: [CheckFunction] is imported from [pincer/utils/types.py],
    which is not part of the sources at hand. The spec gives a subscription a
    [predicate: optional(Args) -> bool]; the docstrings say
    [Optional[Callable[[Any], bool]]]. A call of user code may also raise. *)
Definition CheckFunction := option (Args -> result bool).

(** ** [Processable]: the matching contract *)

(** The attributes [matches_event] reads and writes on [self]. *)
Class Subscription (A : Type) := {
  event_name : A -> string;
  check : A -> CheckFunction;
  return_value : A -> option Args;
  set_return_value : Args -> A -> A
}.

(** [Processable.matches_event]. The assignment to [return_value] precedes the
    call of [check], so it is kept when [check] rejects the event or raises. *)
Definition matches_event {A} `{Subscription A}
    (self : A) (name : string) (args : Args) : A * result bool :=
  if negb (String.eqb (event_name self) name) then (self, Ok false)
  else
    let self := set_return_value args self in
    match check self with
    | Some chk => (self, chk args)
    | None => (self, Ok true)
    end.

(** [_lowest_value]: [min] of the truthy arguments; [min] of an empty list
    raises [ValueError]. [None] and [0] are falsy. *)
Definition truthy (n : option Z) : bool :=
  match n with
  | None => false
  | Some z => negb (Z.eqb z 0)
  end.

Fixpoint truthy_values (args : list (option Z)) : list Z :=
  match args with
  | [] => []
  | None :: rest => truthy_values rest
  | Some z :: rest =>
      if truthy (Some z) then z :: truthy_values rest else truthy_values rest
  end.

Definition py_min (l : list Z) : result Z :=
  match l with
  | [] => Raise ValueError
  | x :: rest => Ok (fold_left Z.min rest x)
  end.

Definition _lowest_value (args : list (option Z)) : result Z :=
  py_min (truthy_values args).

(** ** [_DiscordEvent]: the one-shot waiter *)

(** An [asyncio.Event] ([ev_is_set] is its flag) with the matching
    attributes. *)
Record _DiscordEvent := Build_DiscordEvent {
  ev_event_name : string;
  ev_check : CheckFunction;
  ev_return_value : option Args;
  ev_is_set : bool
}.

Definition new_DiscordEvent (name : string) (chk : CheckFunction) : _DiscordEvent :=
  {| ev_event_name := name; ev_check := chk;
     ev_return_value := None; ev_is_set := false |}.

Definition ev_with_return_value (args : Args) (e : _DiscordEvent) : _DiscordEvent :=
  {| ev_event_name := ev_event_name e; ev_check := ev_check e;
     ev_return_value := Some args; ev_is_set := ev_is_set e |}.

(** [Event.set]. *)
Definition ev_set (e : _DiscordEvent) : _DiscordEvent :=
  {| ev_event_name := ev_event_name e; ev_check := ev_check e;
     ev_return_value := ev_return_value e; ev_is_set := true |}.

#[export] Instance DiscordEvent_Subscription : Subscription _DiscordEvent := {
  event_name := ev_event_name;
  check := ev_check;
  return_value := ev_return_value;
  set_return_value := ev_with_return_value
}.

(** [_DiscordEvent.process]. *)
Definition DiscordEvent_process (self : _DiscordEvent) (name : string) (args : Args)
    : _DiscordEvent * result unit :=
  match matches_event self name args with
  | (self, Ok true) => (ev_set self, Ok tt)
  | (self, Ok false) => (self, Ok tt)
  | (self, Raise e) => (self, Raise e)
  end.

(** ** [_LoopMgr]: the streaming waiter *)

(** [events] is the deque, front first; [wait] is the flag of the
    [asyncio.Event]. [__init__] does not create [return_value]: the attribute
    exists from the first name match on. *)
Record _LoopMgr := Build_LoopMgr {
  lm_event_name : string;
  lm_check : CheckFunction;
  lm_return_value : option Args;
  can_expand : bool;
  events : list Args;
  wait : bool
}.

Definition new_LoopMgr (name : string) (chk : CheckFunction) : _LoopMgr :=
  {| lm_event_name := name; lm_check := chk; lm_return_value := None;
     can_expand := true; events := []; wait := false |}.

Definition lm_with_return_value (args : Args) (l : _LoopMgr) : _LoopMgr :=
  {| lm_event_name := lm_event_name l; lm_check := lm_check l;
     lm_return_value := Some args; can_expand := can_expand l;
     events := events l; wait := wait l |}.

Definition lm_with_events (q : list Args) (l : _LoopMgr) : _LoopMgr :=
  {| lm_event_name := lm_event_name l; lm_check := lm_check l;
     lm_return_value := lm_return_value l; can_expand := can_expand l;
     events := q; wait := wait l |}.

Definition lm_with_wait (b : bool) (l : _LoopMgr) : _LoopMgr :=
  {| lm_event_name := lm_event_name l; lm_check := lm_check l;
     lm_return_value := lm_return_value l; can_expand := can_expand l;
     events := events l; wait := b |}.

Definition lm_with_can_expand (b : bool) (l : _LoopMgr) : _LoopMgr :=
  {| lm_event_name := lm_event_name l; lm_check := lm_check l;
     lm_return_value := lm_return_value l; can_expand := b;
     events := events l; wait := wait l |}.

#[export] Instance LoopMgr_Subscription : Subscription _LoopMgr := {
  event_name := lm_event_name;
  check := lm_check;
  return_value := lm_return_value;
  set_return_value := lm_with_return_value
}.

(** [_LoopMgr.process]. *)
Definition LoopMgr_process (self : _LoopMgr) (name : string) (args : Args)
    : _LoopMgr * result unit :=
  if negb (can_expand self) then (self, Ok tt)
  else
    match matches_event self name args with
    | (self, Ok true) =>
        (lm_with_wait true (lm_with_events (events self ++ [args]) self), Ok tt)
    | (self, Ok false) => (self, Ok tt)
    | (self, Raise e) => (self, Raise e)
    end.

(** [deque.popleft]: [IndexError] on an empty deque. *)
Definition popleft (self : _LoopMgr) : _LoopMgr * result Args :=
  match events self with
  | [] => (self, Raise IndexError)
  | item :: rest => (lm_with_events rest self, Ok item)
  end.

(** A coroutine run up to its first suspension point. *)
Inductive poll (A : Type) :=
| Ready (r : result A)
| Suspended.

Arguments Ready {A} r.
Arguments Suspended {A}.

(** [_LoopMgr.get_next] up to [await self.wait.wait()]: it suspends there
    with the flag just cleared. *)
Definition get_next (self : _LoopMgr) : _LoopMgr * poll Args :=
  match events self with
  | [] =>
      if negb (can_expand self) then (self, Ready (Raise LoopEmptyError))
      else (lm_with_wait false self, Suspended)
  | _ :: _ =>
      let (self, r) := popleft self in (self, Ready r)
  end.

(** [_LoopMgr.get_next] from the point where [self.wait.wait()] has
    returned. *)
Definition get_next_resume (self : _LoopMgr) : _LoopMgr * result Args :=
  popleft self.

(** ** The object store and [EventMgr] *)

(** What a reference in [event_list] may point to. *)
Inductive subscription :=
| SEvent (e : _DiscordEvent)
| SLoop (l : _LoopMgr).

(** The call [event.process(event_name, *args)], dispatched on the class of
    the object. *)
Definition process (s : subscription) (name : string) (args : Args)
    : subscription * result unit :=
  match s with
  | SEvent e => let (e, r) := DiscordEvent_process e name args in (SEvent e, r)
  | SLoop l => let (l, r) := LoopMgr_process l name args in (SLoop l, r)
  end.

(** An [EventMgr] with the objects its registry and its callers refer to:
    [objects] maps an object identity to the object's current state,
    [next_id] is the identity the next constructor call returns, and
    [event_list] is the attribute of the class, in insertion order. *)
Record EventMgr := Build_EventMgr {
  objects : gmap nat subscription;
  next_id : nat;
  event_list : list nat
}.

(** [EventMgr.__init__]. *)
Definition new_EventMgr : EventMgr :=
  {| objects := ∅; next_id := 0; event_list := [] |}.

Definition with_objects (h : gmap nat subscription) (m : EventMgr) : EventMgr :=
  {| objects := h; next_id := next_id m; event_list := event_list m |}.

Definition with_event_list (l : list nat) (m : EventMgr) : EventMgr :=
  {| objects := objects m; next_id := next_id m; event_list := l |}.

(** Writing through a reference. *)
Definition store (id : nat) (s : subscription) (m : EventMgr) : EventMgr :=
  with_objects (<[id := s]> (objects m)) m.

(** A constructor call: a new object with an identity not used before. *)
Definition alloc (s : subscription) (m : EventMgr) : EventMgr * nat :=
  ({| objects := <[next_id m := s]> (objects m);
      next_id := S (next_id m);
      event_list := event_list m |}, next_id m).

(** [self.event_list.append(x)]. *)
Definition append (id : nat) (m : EventMgr) : EventMgr :=
  with_event_list (event_list m ++ [id]) m.

(** [list.remove]: drops the first occurrence, [ValueError] when there is
    none. *)
Fixpoint list_remove (x : nat) (l : list nat) : result (list nat) :=
  match l with
  | [] => Raise ValueError
  | y :: rest =>
      if Nat.eqb y x then Ok rest
      else match list_remove x rest with
           | Ok r => Ok (y :: r)
           | Raise e => Raise e
           end
  end.

(** [EventMgr.add_event]. *)
Definition add_event (m : EventMgr) (name : string) (chk : CheckFunction)
    : EventMgr * nat :=
  let (m, event) := alloc (SEvent (new_DiscordEvent name chk)) m in
  (append event m, event).

(** The loop [for event in self.event_list: event.process(event_name, *args)]
    over the store. An exception leaves the loop at once; what was written
    before stays written. A reference always points to an object, so the
    [None] branch is never taken from a manager built by the operations
    below. *)
Fixpoint process_each (ids : list nat) (name : string) (args : Args)
    (h : gmap nat subscription) : gmap nat subscription * result unit :=
  match ids with
  | [] => (h, Ok tt)
  | id :: rest =>
      match h !! id with
      | None => process_each rest name args h
      | Some s =>
          match process s name args with
          | (s, Ok _) => process_each rest name args (<[id := s]> h)
          | (s, Raise e) => (<[id := s]> h, Raise e)
          end
      end
  end.

(** [EventMgr.process_events]. *)
Definition process_events (m : EventMgr) (name : string) (args : Args)
    : EventMgr * result unit :=
  let (h, r) := process_each (event_list m) name args (objects m) in
  (with_objects h m, r).

(** ** Suspension points *)

(** What the event loop does while a coroutine of this module is suspended:
    the events the event source dispatches, in order ([during]); whether the
    deadline of the enclosing [asyncio.wait_for] fires before a woken waiter
    gets to run ([deadline_first]); whether the suspended task is cancelled
    from outside ([cancel]). An exception of [process_events] goes to the
    event source, not to the suspended coroutine. *)
Record suspension := Build_suspension {
  during : list (string * Args);
  deadline_first : bool;
  cancel : bool
}.

Definition deliver (ds : list (string * Args)) (m : EventMgr) : EventMgr :=
  fold_left (fun m d => fst (process_events m (fst d) (snd d))) ds m.

Inductive wakeup :=
| Signalled
| TimedOut
| Cancelled
| Never.

(** How [await asyncio.wait_for(c, timeout)] ends once [c] is suspended on an
    [asyncio.Event] whose flag is [flag] when the wait is over. Without a
    timeout only the flag or a cancellation ends it. *)
Definition wake (timeout : option Z) (flag : bool) (env : suspension) : wakeup :=
  if cancel env then Cancelled
  else match timeout with
       | None => if flag then Signalled else Never
       | Some t =>
           if (t <=? 0)%Z || deadline_first env || negb flag then TimedOut
           else Signalled
       end.

Inductive outcome (A : Type) :=
| Returned (a : A)
| Failed (e : exn)
| Blocked.

Arguments Returned {A} a.
Arguments Failed {A} e.
Arguments Blocked {A}.

Definition is_set_at (m : EventMgr) (id : nat) : bool :=
  match objects m !! id with
  | Some (SEvent e) => ev_is_set e
  | _ => false
  end.

Definition return_value_at (m : EventMgr) (id : nat) : option Args :=
  match objects m !! id with
  | Some (SEvent e) => ev_return_value e
  | Some (SLoop l) => lm_return_value l
  | None => None
  end.

(** ** [EventMgr.wait_for] *)

Definition wait_for_timeout_msg : string :=
  "wait_for() timed out while waiting for an event.".

(** The coroutine has one suspension point,
    [await _wait_for(event.wait(), timeout=timeout)]. Both [raise] paths leave
    before [self.event_list.remove(event)]. The result is [event.return_value]
    as it is when the coroutine runs again. *)
Definition wait_for (m : EventMgr) (name : string) (chk : CheckFunction)
    (timeout : option Z) (env : suspension) : EventMgr * outcome (option Args) :=
  let (m, event) := add_event m name chk in
  let m := deliver (during env) m in
  match wake timeout (is_set_at m event) env with
  | Cancelled => (m, Failed CancelledError)
  | Never => (m, Blocked)
  | TimedOut =>
      (m, Failed (TimeoutError wait_for_timeout_msg))
  | Signalled =>
      match list_remove event (event_list m) with
      | Raise e => (m, Failed e)
      | Ok l => (with_event_list l m, Returned (return_value_at m event))
      end
  end.

(** ** [EventMgr.loop_for] *)

(** Where the asynchronous generator is suspended between two requests of its
    consumer, with the local variables alive there. [Running] is a generator
    that has not answered its last request: it rests at an [await], not at a
    [yield]. *)
Inductive frame :=
| Created
| AtYield (loop_mgr : nat) (start_time : Z)
| AtDrainYield (loop_mgr : nat)
| Running (loop_mgr : nat)
| Finished.

(** The generator object: its parameters ([loop_timeout] is assigned to in
    the body) and its frame. *)
Record generator := Build_generator {
  g_event_name : string;
  g_check : CheckFunction;
  iteration_timeout : option Z;
  loop_timeout : option Z;
  pc : frame
}.

(** Calling [loop_for] only builds the generator; the body starts at the
    first request. *)
Definition loop_for (name : string) (chk : CheckFunction)
    (iteration_timeout loop_timeout : option Z) : generator :=
  {| g_event_name := name; g_check := chk;
     iteration_timeout := iteration_timeout;
     loop_timeout := loop_timeout; pc := Created |}.

Definition with_pc (f : frame) (g : generator) : generator :=
  {| g_event_name := g_event_name g; g_check := g_check g;
     iteration_timeout := iteration_timeout g;
     loop_timeout := loop_timeout g; pc := f |}.

Definition with_loop_timeout (t : option Z) (g : generator) : generator :=
  {| g_event_name := g_event_name g; g_check := g_check g;
     iteration_timeout := iteration_timeout g;
     loop_timeout := t; pc := pc g |}.

(** What one request to the generator gives: an item, the end of the
    sequence, an exception, or no answer ([Pending]: the generator waits
    without a deadline for a signal that did not come). [Stuck] marks a
    reference that points to no [_LoopMgr]; the store of a running program
    has none. *)
Inductive gen_result :=
| Yield (item : Args)
| StopAsyncIteration
| Error (e : exn)
| Pending
| Stuck.

(** The readings of [loop.time()] and the suspension of one request:
    [clock_now] is read by [loop_timeout -= loop.time() - start_time],
    [clock_start] by [start_time = loop.time()]. *)
Record resumption := Build_resumption {
  clock_now : Z;
  clock_start : Z;
  susp : suspension
}.

Definition lookup_loop (m : EventMgr) (id : nat) : option _LoopMgr :=
  match objects m !! id with
  | Some (SLoop l) => Some l
  | _ => None
  end.

Definition wait_at (m : EventMgr) (id : nat) : bool :=
  match lookup_loop m id with
  | Some l => wait l
  | None => false
  end.

Definition loop_timeout_msg : string :=
  "loop_for() timed out while waiting for an event".

(** One turn of the inner [while True: yield await loop_mgr.get_next()],
    with its handler for [LoopEmptyError]. *)
Definition drain (m : EventMgr) (g : generator) (id : nat)
    : EventMgr * generator * gen_result :=
  match lookup_loop m id with
  | None => (m, with_pc (Running id) g, Stuck)
  | Some l =>
      match get_next l with
      | (l, Ready (Ok item)) =>
          (store id (SLoop l) m, with_pc (AtDrainYield id) g, Yield item)
      | (l, Ready (Raise LoopEmptyError)) =>
          (store id (SLoop l) m, with_pc Finished g,
           Error (TimeoutError loop_timeout_msg))
      | (l, Ready (Raise e)) =>
          (store id (SLoop l) m, with_pc Finished g, Error e)
      | (l, Suspended) => (store id (SLoop l) m, with_pc (Running id) g, Pending)
      end
  end.

(** The handler [except TimeoutError]: close the waiter, then drain. *)
Definition on_timeout (m : EventMgr) (g : generator) (id : nat)
    : EventMgr * generator * gen_result :=
  match lookup_loop m id with
  | None => (m, with_pc (Running id) g, Stuck)
  | Some l => drain (store id (SLoop (lm_with_can_expand false l)) m) g id
  end.

(** One turn of the outer [while True] up to its [yield]. The timeout is
    computed after the coroutine object of [get_next] is made and before it
    runs. With a timeout that is not positive [asyncio.wait_for] cancels the
    coroutine before its first step. An exception other than [TimeoutError]
    leaves the generator. *)
Definition iteration (env : resumption) (m : EventMgr) (g : generator) (id : nat)
    : EventMgr * generator * gen_result :=
  let start_time := clock_start env in
  match _lowest_value [loop_timeout g; iteration_timeout g] with
  | Raise e => (m, with_pc Finished g, Error e)
  | Ok t =>
      if (t <=? 0)%Z then on_timeout m g id
      else
        match lookup_loop m id with
        | None => (m, with_pc (Running id) g, Stuck)
        | Some l =>
            match get_next l with
            | (l, Ready (Ok item)) =>
                (store id (SLoop l) m, with_pc (AtYield id start_time) g, Yield item)
            | (l, Ready (Raise e)) =>
                (store id (SLoop l) m, with_pc Finished g, Error e)
            | (l, Suspended) =>
                let m := deliver (during (susp env)) (store id (SLoop l) m) in
                match wake (Some t) (wait_at m id) (susp env) with
                | Cancelled => (m, with_pc Finished g, Error CancelledError)
                | Never => (m, with_pc (Running id) g, Pending)
                | TimedOut => on_timeout m g id
                | Signalled =>
                    match lookup_loop m id with
                    | None => (m, with_pc (Running id) g, Stuck)
                    | Some l =>
                        match get_next_resume l with
                        | (l, Ok item) =>
                            (store id (SLoop l) m,
                             with_pc (AtYield id start_time) g, Yield item)
                        | (l, Raise e) =>
                            (store id (SLoop l) m, with_pc Finished g, Error e)
                        end
                    end
                end
            end
        end
  end.

(** One request ([__anext__]) to the generator. From [Created] the body
    starts: the [_LoopMgr] is built and appended to [event_list]. From the
    [yield] of the outer loop the body goes on with
    [loop_timeout -= loop.time() - start_time], which is a [TypeError] on
    [None], and the test [loop_timeout <= 0]. *)
Definition anext (env : resumption) (m : EventMgr) (g : generator)
    : EventMgr * generator * gen_result :=
  match pc g with
  | Finished => (m, g, StopAsyncIteration)
  | Created =>
      let (m, loop_mgr) := alloc (SLoop (new_LoopMgr (g_event_name g) (g_check g))) m in
      iteration env (append loop_mgr m) g loop_mgr
  | AtYield loop_mgr start_time =>
      match loop_timeout g with
      | None => (m, with_pc Finished g, Error TypeError)
      | Some t =>
          let t := (t - (clock_now env - start_time))%Z in
          let g := with_loop_timeout (Some t) g in
          if (t <=? 0)%Z then (m, with_pc Finished g, StopAsyncIteration)
          else iteration env m g loop_mgr
      end
  | AtDrainYield loop_mgr => drain m g loop_mgr
  | Running _ => (m, g, Pending)
  end.

(** [aclose], also what cancelling or dropping the consumer comes to:
    [GeneratorExit] is thrown in at the [yield] where the generator is
    suspended, and no handler of the body catches it. *)
Definition aclose (m : EventMgr) (g : generator) : EventMgr * generator :=
  (m, with_pc Finished g).

(** What the consumer and the event source do, interleaved. *)
Inductive action :=
| Dispatch (name : string) (args : Args)
| Next (env : resumption)
| Close.

Fixpoint run (acts : list action) (m : EventMgr) (g : generator)
    : EventMgr * generator * list gen_result :=
  match acts with
  | [] => (m, g, [])
  | Dispatch name args :: rest => run rest (fst (process_events m name args)) g
  | Next env :: rest =>
      let '(m, g, r) := anext env m g in
      let '(m, g, rs) := run rest m g in
      (m, g, r :: rs)
  | Close :: rest =>
      let (m, g) := aclose m g in run rest m g
  end.

(** Attribute access through a reference of either class. *)
#[export] Instance subscription_Subscription : Subscription subscription := {
  event_name s :=
    match s with SEvent e => event_name e | SLoop l => event_name l end;
  check s :=
    match s with SEvent e => check e | SLoop l => check l end;
  return_value s :=
    match s with SEvent e => return_value e | SLoop l => return_value l end;
  set_return_value args s :=
    match s with
    | SEvent e => SEvent (set_return_value args e)
    | SLoop l => SLoop (set_return_value args l)
    end
}.

(** Whether [process] looks at the event at all: a [_LoopMgr] that cannot
    expand returns before matching. *)
Definition listening (s : subscription) : bool :=
  match s with
  | SEvent _ => true
  | SLoop l => can_expand l
  end.

(** The states a [_LoopMgr] can be in: built by [__init__], then changed only
    by [process], by the two halves of [get_next], and by the assignment
    [can_expand = False] of [loop_for]. *)
Inductive LoopMgr_reachable : _LoopMgr -> Prop :=
| reach_init name chk :
    LoopMgr_reachable (new_LoopMgr name chk)
| reach_process l name args :
    LoopMgr_reachable l -> LoopMgr_reachable (fst (LoopMgr_process l name args))
| reach_get_next l :
    LoopMgr_reachable l -> LoopMgr_reachable (fst (get_next l))
| reach_get_next_resume l :
    LoopMgr_reachable l -> LoopMgr_reachable (fst (get_next_resume l))
| reach_close l :
    LoopMgr_reachable l -> LoopMgr_reachable (lm_with_can_expand false l).

(** Requests of the consumer, each preceded by the dispatches that arrive
    while the generator rests at its [yield]. *)
Definition rounds (steps : list (list (string * Args) * resumption)) : list action :=
  concat (map (fun st =>
                 map (fun d => Dispatch (fst d) (snd d)) (fst st) ++ [Next (snd st)])
              steps).

(** The handler [except TimeoutError] followed by further rounds: everything
    the consumer gets from the moment the bounded wait times out. *)
Definition after_timeout (m : EventMgr) (g : generator) (id : nat)
    (steps : list (list (string * Args) * resumption)) : list gen_result :=
  let '(m, g, r) := on_timeout m g id in
  r :: snd (run (rounds steps) m g).

(** A reference that points to an object from whose [process] the given
    dispatch returns normally. *)
Definition quiet (name : string) (args : Args)
    (h : gmap nat subscription) (id : nat) : Prop :=
  exists s, h !! id = Some s /\ snd (process s name args) = Ok tt.

(** Whether a dispatch is one a waiter for [name] with check [chk] is woken
    by: the same name, and the check, if any, returns [True]. *)
Definition matching (name : string) (chk : CheckFunction) (d : string * Args) : bool :=
  String.eqb name (fst d) &&
  match chk with
  | None => true
  | Some p => match p (snd d) with Ok true => true | _ => false end
  end.

(** A one-shot waiter for [name] with check [chk] that is not signalled. *)
Definition unsignalled (name : string) (chk : CheckFunction) (s : subscription) : Prop :=
  exists e, s = SEvent e /\ ev_event_name e = name /\ ev_check e = chk /\
            ev_is_set e = false.

(** The reference [id] points to a [_LoopMgr] that listens for [name]. *)
Definition named_at (name : string) (m : EventMgr) (id : nat) : Prop :=
  exists l, lookup_loop m id = Some l /\ lm_event_name l = name.

(** The flag a suspended caller waits on, and the items queued for it. *)
Definition signal (s : subscription) : bool :=
  match s with
  | SEvent e => ev_is_set e
  | SLoop l => wait l
  end.

Definition queue (s : subscription) : list Args :=
  match s with
  | SEvent _ => []
  | SLoop l => events l
  end.

(** A manager as the operations build it: no object is registered twice,
    every reference of the registry points to an object, and every object
    was made by a constructor call that came before. *)
Definition well_formed (m : EventMgr) : Prop :=
  NoDup (event_list m) /\
  (forall id, id ∈ event_list m -> is_Some (objects m !! id)) /\
  (forall id, is_Some (objects m !! id) -> id < next_id m).

(** The arguments, in order, of the dispatches of [ds] that match a waiter
    for [name] with check [chk]. *)
Definition accepted (name : string) (chk : CheckFunction)
    (ds : list (string * Args)) : list Args :=
  map snd (List.filter (matching name chk) ds).

(** One object receiving the dispatches of [ds] one after the other. *)
Definition LoopMgr_feed (l : _LoopMgr) (ds : list (string * Args)) : _LoopMgr :=
  fold_left (fun l d => fst (LoopMgr_process l (fst d) (snd d))) ds l.

Definition DiscordEvent_feed (e : _DiscordEvent) (ds : list (string * Args))
    : _DiscordEvent :=
  fold_left (fun e d => fst (DiscordEvent_process e (fst d) (snd d))) ds e.

(** The arguments of the last dispatch of [ds] that carries [name]. *)
Definition last_named (name : string) (ds : list (string * Args)) : option Args :=
  option_map snd (last (List.filter (fun d => String.eqb name (fst d)) ds)).

(** Everything the event source dispatches during a run, in order. *)
Definition dispatched (acts : list action) : list (string * Args) :=
  concat (map (fun a =>
                 match a with
                 | Dispatch name args => [(name, args)]
                 | Next env => during (susp env)
                 | Close => []
                 end) acts).

(** The items among the answers of a generator. *)
Definition yields (rs : list gen_result) : list Args :=
  concat (map (fun r => match r with Yield item => [item] | _ => [] end) rs).

(** An answer that ends the sequence. *)
Definition ends (r : gen_result) : bool :=
  match r with
  | StopAsyncIteration | Error _ => true
  | _ => false
  end.

(** What a generator of [loop_for name chk] still has to hand out: nothing
    before its body starts or once it rests for good, else the queue of its
    [_LoopMgr], which listens for [name] with check [chk]. *)
Definition backlog (name : string) (chk : CheckFunction)
    (m : EventMgr) (g : generator) (q : list Args) : Prop :=
  match pc g with
  | Created => q = [] /\ g_event_name g = name /\ g_check g = chk
  | AtYield id _ | AtDrainYield id =>
      exists l, lookup_loop m id = Some l /\ lm_event_name l = name /\
                lm_check l = chk /\ events l = q
  | Running _ | Finished => q = []
  end.

(** The outcome [R] of a step hands out, and keeps queued, only items of
    [src], in the order of [src]. *)
Definition step_ok (name : string) (chk : CheckFunction)
    (R : EventMgr * generator * gen_result) (src : list Args) : Prop :=
  exists q, backlog name chk (fst (fst R)) (snd (fst R)) q /\
            sublist (yields [snd R] ++ q) src.

(** ** [pincer/objects/guild/channel.py]: channel types and classes *)

(** The members of the [IntEnum] [ChannelType]. *)
Inductive ChannelType :=
| GUILD_TEXT
| DM
| GUILD_VOICE
| GROUP_DM
| GUILD_CATEGORY
| GUILD_NEWS
| GUILD_STORE
| GUILD_NEWS_THREAD
| GUILD_PUBLIC_THREAD
| GUILD_PRIVATE_THREAD
| GUILD_STAGE_VOICE.

#[export] Instance ChannelType_eq_dec : EqDecision ChannelType.
Proof. solve_decision. Defined.

Definition ChannelType_value (t : ChannelType) : Z :=
  match t with
  | GUILD_TEXT => 0
  | DM => 1
  | GUILD_VOICE => 2
  | GROUP_DM => 3
  | GUILD_CATEGORY => 4
  | GUILD_NEWS => 5
  | GUILD_STORE => 6
  | GUILD_NEWS_THREAD => 10
  | GUILD_PUBLIC_THREAD => 11
  | GUILD_PRIVATE_THREAD => 12
  | GUILD_STAGE_VOICE => 13
  end.

(** The members the class body defines, in its order. [version] is
    [GatewayConfig.version], of [pincer/_config.py], which is not among the
    sources: the three thread types exist only when it is at least 9. *)
Definition ChannelType_members (version : Z) : list ChannelType :=
  [GUILD_TEXT; DM; GUILD_VOICE; GROUP_DM; GUILD_CATEGORY; GUILD_NEWS; GUILD_STORE]
  ++ (if (9 <=? version)%Z
      then [GUILD_NEWS_THREAD; GUILD_PUBLIC_THREAD; GUILD_PRIVATE_THREAD]
      else [])
  ++ [GUILD_STAGE_VOICE].

(** The call [ChannelType(v)]: the member whose value is [v], [ValueError]
    when no member has it. *)
Definition ChannelType_call (version : Z) (v : value) : result ChannelType :=
  match v with
  | VInt n =>
      match List.find (fun t => Z.eqb (ChannelType_value t) n)
                      (ChannelType_members version) with
      | Some t => Ok t
      | None => Raise ValueError
      end
  | _ => Raise ValueError
  end.

(** The classes of the module. *)
Inductive channel_class :=
| Channel
| TextChannel
| VoiceChannel
| CategoryChannel
| NewsChannel.

(** The dict [_channel_type_map], as its literal lists it. *)
Definition _channel_type_map : list (ChannelType * channel_class) :=
  [(GUILD_TEXT, TextChannel); (GUILD_VOICE, VoiceChannel);
   (GUILD_CATEGORY, CategoryChannel); (GUILD_NEWS, NewsChannel)].

(** [d.get(key, default)] on a dict given by its items. *)
Fixpoint dict_get {V : Type} (d : list (ChannelType * V)) (key : ChannelType)
    (default : V) : V :=
  match d with
  | [] => default
  | (k, v) :: rest => if decide (k = key) then v else dict_get rest key default
  end.

(** How the choice of a class ends: a class, the [KeyError] of
    [data.pop("type")], or the [ValueError] of [ChannelType(...)]. *)
Inductive selection :=
| Selected (cls : channel_class)
| KeyError (key : string)
| NotAChannelType (v : value).

(** What [Channel.from_id] does with the answer of the HTTP call before
    [from_dict], and [Channel.edit] with an answer that is a dict:
    [data = response or {}], the type is popped and converted, put back by
    [construct_client_dict] (of [pincer/utils/conversion.py], not among the
    sources; it keeps the entries it is given), and the class is looked up
    with [Channel] as default. *)
Definition channel_cls (version : Z) (response : option (gmap string value))
    : selection :=
  let data := default ∅ response in
  match data !! "type" with
  | None => KeyError "type"
  | Some v =>
      match ChannelType_call version v with
      | Raise _ => NotAChannelType v
      | Ok t => Selected (dict_get _channel_type_map t Channel)
      end
  end.

(** The number [n] is the value of a channel type the class defines. *)
Definition type_number (version n : Z) : Prop :=
  n ∈ [0; 1; 2; 3; 4; 5; 6; 13]%Z \/ ((9 <= version)%Z /\ n ∈ [10; 11; 12]%Z).

(** The answers a consumer of [loop_for] is prepared for: an item, the end
    of the sequence, the timeout of the loop, the two exceptions of absent
    bounds, and its own cancellation. *)
Definition expected (r : gen_result) : Prop :=
  match r with
  | Yield _ | StopAsyncIteration => True
  | Error (TimeoutError msg) => msg = loop_timeout_msg
  | Error ValueError | Error TypeError | Error CancelledError => True
  | _ => False
  end.

(** The [_LoopMgr] of a generator that rests at a [yield]: open in the outer
    loop, closed in the drain loop. A generator between two requests never
    rests anywhere else. *)
Definition settled (m : EventMgr) (g : generator) : Prop :=
  match pc g with
  | Created | Finished => True
  | AtYield id _ => exists l, lookup_loop m id = Some l /\ can_expand l = true
  | AtDrainYield id => exists l, lookup_loop m id = Some l /\ can_expand l = false
  | Running _ => False
  end.

(** An open [_LoopMgr] whose flag, when raised, announces a queued item. *)
Definition announced (s : subscription) : Prop :=
  exists l, s = SLoop l /\ can_expand l = true /\ (wait l = true -> events l <> []).

(** * Properties *)

(** ** The matching contract *)

Section Matching.
Context {A : Type} `{Subscription A}.

Lemma matches_event_other_name (self : A) name args :
  event_name self <> name -> matches_event self name args = (self, Ok false).
Proof.
  intros Hne. unfold matches_event.
  destruct (String.eqb_spec (event_name self) name) as [Heq | _];
    [contradiction | reflexivity].
Qed.

Lemma matches_event_same_name (self : A) name args :
  event_name self = name ->
  matches_event self name args =
    (set_return_value args self,
     match check (set_return_value args self) with
     | Some chk => chk args
     | None => Ok true
     end).
Proof.
  intros Heq. unfold matches_event.
  rewrite (proj2 (String.eqb_eq _ _) Heq). simpl.
  destruct (check (set_return_value args self)); reflexivity.
Qed.
End Matching.

(** C9. [matches_event] on either kind of subscription: a different name
    (compared exactly, so a different case is a different name) gives [False]
    and leaves the object, hence [return_value], as it was; the same name
    stores [args] in [return_value] whatever the check then says, and the
    result is the check applied to [args], or [True] without a check. *)
Theorem matches_event_contract :
  (forall (e : _DiscordEvent) name args,
      (event_name e <> name ->
       matches_event e name args = (e, Ok false)) /\
      (event_name e = name ->
       return_value (fst (matches_event e name args)) = Some args /\
       fst (matches_event e name args) = ev_with_return_value args e /\
       snd (matches_event e name args) =
         match check e with Some chk => chk args | None => Ok true end))
  /\
  (forall (l : _LoopMgr) name args,
      (event_name l <> name ->
       matches_event l name args = (l, Ok false)) /\
      (event_name l = name ->
       return_value (fst (matches_event l name args)) = Some args /\
       fst (matches_event l name args) = lm_with_return_value args l /\
       snd (matches_event l name args) =
         match check l with Some chk => chk args | None => Ok true end))
  /\
  matches_event (new_DiscordEvent "on_ready" None) "On_Ready" [VInt 1]
    = (new_DiscordEvent "on_ready" None, Ok false).
Proof.
  split; [| split].
  - intros e name args. split.
    + apply matches_event_other_name.
    + intros Heq. rewrite (matches_event_same_name e name args Heq).
      simpl. auto.
  - intros l name args. split.
    + apply matches_event_other_name.
    + intros Heq. rewrite (matches_event_same_name l name args Heq).
      simpl. auto.
  - reflexivity.
Qed.

(** A check that rejects: the arguments are recorded all the same. *)
Example matches_event_rejected_still_records :
  let e := new_DiscordEvent "on_x" (Some (fun _ => Ok false)) in
  return_value (fst (matches_event e "on_x" [VInt 7])) = Some [VInt 7] /\
  snd (matches_event e "on_x" [VInt 7]) = Ok false.
Proof. split; reflexivity. Qed.

(** ** The streaming waiter on its own *)

Lemma LoopMgr_process_closed (l : _LoopMgr) name args :
  can_expand l = false -> LoopMgr_process l name args = (l, Ok tt).
Proof. intros Hc. unfold LoopMgr_process. rewrite Hc. reflexivity. Qed.

Lemma get_next_closed (l : _LoopMgr) :
  can_expand l = false ->
  get_next l =
    match events l with
    | [] => (l, Ready (Raise LoopEmptyError))
    | item :: rest => (lm_with_events rest l, Ready (Ok item))
    end.
Proof.
  intros Hc. unfold get_next, popleft.
  destruct (events l) as [| item rest]; [rewrite Hc |]; reflexivity.
Qed.

Lemma get_next_pop (l : _LoopMgr) item rest :
  events l = item :: rest ->
  get_next l = (lm_with_events rest l, Ready (Ok item)).
Proof. intros Hq. unfold get_next, popleft. rewrite Hq. reflexivity. Qed.

Lemma get_next_suspends (l : _LoopMgr) :
  events l = [] -> can_expand l = true ->
  get_next l = (lm_with_wait false l, Suspended).
Proof. intros Hq Hc. unfold get_next. rewrite Hq, Hc. reflexivity. Qed.

(** The queue and the flag after [process]: either both untouched, or one
    item more and the flag raised. *)
Lemma LoopMgr_process_queue (l : _LoopMgr) name args :
  let l' := fst (LoopMgr_process l name args) in
  (events l' = events l /\ wait l' = wait l) \/
  (events l' = events l ++ [args] /\ wait l' = true).
Proof.
  unfold LoopMgr_process, matches_event. simpl.
  destruct (can_expand l); simpl; [| by left].
  destruct (negb (String.eqb (lm_event_name l) name)); simpl; [by left |].
  destruct (lm_check l) as [chk |]; simpl.
  - destruct (chk args) as [[|] | e]; simpl; [by right | by left | by left].
  - by right.
Qed.

(** Whenever the queue holds an item the flag is raised. *)
Lemma LoopMgr_reachable_signal (l : _LoopMgr) :
  LoopMgr_reachable l -> events l <> [] -> wait l = true.
Proof.
  induction 1 as [name chk | l name args Hl IH | l Hl IH | l Hl IH | l Hl IH].
  - simpl. congruence.
  - destruct (LoopMgr_process_queue l name args) as [[Hq Hw] | [_ Hw]].
    + rewrite Hq, Hw. exact IH.
    + intros _. exact Hw.
  - unfold get_next, popleft.
    destruct (events l) as [| item rest] eqn:Hq.
    + destruct (can_expand l); simpl; rewrite ?Hq; congruence.
    + simpl. intros _. apply IH. congruence.
  - unfold get_next_resume, popleft.
    destruct (events l) as [| item rest] eqn:Hq; simpl.
    + rewrite Hq. congruence.
    + intros _. apply IH. congruence.
  - simpl. exact IH.
Qed.

(** C7 as stated fails: a waiter that received one matching event has one
    item queued and the flag raised; [get_next] pops the item, the queue is
    empty, and the flag is still raised. *)
Lemma get_next_pop_leaves_signal_raised :
  let l := fst (LoopMgr_process (new_LoopMgr "on_msg" None) "on_msg" [VInt 1]) in
  LoopMgr_reachable l /\
  snd (get_next l) = Ready (Ok [VInt 1]) /\
  events (fst (get_next l)) = [] /\
  wait (fst (get_next l)) = true /\
  ~ (wait (fst (get_next l)) = true <-> events (fst (get_next l)) <> []).
Proof.
  cbv zeta. split.
  - exact (reach_process _ "on_msg" [VInt 1] (reach_init "on_msg" None)).
  - simpl. repeat split.
    intros [Hraised _]. apply Hraised; reflexivity.
Qed.

(** C7, amended. A pop by [get_next] does not touch the flag: it stays as it
    was, so it is raised whenever items remain and stays raised when the pop
    empties the queue. The flag is cleared by the [get_next] that finds the
    queue of an open waiter empty, right before it suspends. *)
Theorem get_next_signal_discipline :
  forall l : _LoopMgr,
    (forall item rest,
        events l = item :: rest ->
        get_next l = (lm_with_events rest l, Ready (Ok item)) /\
        wait (fst (get_next l)) = wait l) /\
    (LoopMgr_reachable l ->
     forall item, snd (get_next l) = Ready (Ok item) ->
       wait (fst (get_next l)) = true) /\
    (LoopMgr_reachable l ->
     events (fst (get_next l)) <> [] -> wait (fst (get_next l)) = true) /\
    (events l = [] -> can_expand l = true ->
     snd (get_next l) = Suspended /\
     wait (fst (get_next l)) = false /\
     events (fst (get_next l)) = []).
Proof.
  intros l. split; [| split; [| split]].
  - intros item rest Hq. rewrite (get_next_pop l item rest Hq). auto.
  - intros Hr item Hpop.
    destruct (events l) as [| x rest] eqn:Hq.
    + unfold get_next in Hpop. rewrite Hq in Hpop.
      destruct (can_expand l); discriminate.
    + rewrite (get_next_pop l x rest Hq). simpl.
      apply LoopMgr_reachable_signal; [exact Hr | congruence].
  - intros Hr. apply LoopMgr_reachable_signal, reach_get_next, Hr.
  - intros Hq Hc. rewrite (get_next_suspends l Hq Hc). simpl. auto.
Qed.

Lemma get_next_signal_discipline_witness :
  let l := fst (LoopMgr_process (new_LoopMgr "on_msg" None) "on_msg" [VInt 1]) in
  wait (fst (get_next l)) = wait l /\
  wait (fst (get_next (fst (get_next l)))) = false.
Proof.
  intros l. split.
  - exact (proj2 (proj1 (get_next_signal_discipline l) [VInt 1] [] eq_refl)).
  - exact (proj1 (proj2 (proj2 (proj2 (proj2
             (get_next_signal_discipline (fst (get_next l)))))
             eq_refl eq_refl))).
Defined.

(** ** The dispatch loop over the store *)

Section Dispatch.
Variables (name : string) (args : Args).

Implicit Types (h : gmap nat subscription) (ids : list nat).

Local Abbreviation quiet := (quiet name args).

(** Objects the loop does not visit are not written. *)
Lemma process_each_not_visited ids h (id : nat) :
  id ∉ ids -> fst (process_each ids name args h) !! id = h !! id.
Proof.
  revert h. induction ids as [| j rest IH]; intros h Hnot; [reflexivity |].
  apply not_elem_of_cons in Hnot as [Hne Hrest]. simpl.
  destruct (h !! j) as [s |] eqn:Hj; [| by apply IH].
  destruct (process s name args) as [s' [[] | e]] eqn:Hp; simpl.
  - rewrite IH by exact Hrest. by apply lookup_insert_ne.
  - by apply lookup_insert_ne.
Qed.

(** The loop goes through the list front to back. *)
Lemma process_each_app ids1 ids2 h :
  process_each (ids1 ++ ids2) name args h =
    match process_each ids1 name args h with
    | (h1, Ok _) => process_each ids2 name args h1
    | (h1, Raise e) => (h1, Raise e)
    end.
Proof.
  revert h. induction ids1 as [| j rest IH]; intros h; [reflexivity |].
  simpl. destruct (h !! j) as [s |]; [| apply IH].
  destruct (process s name args) as [s' [[] | e]]; [apply IH | reflexivity].
Qed.

Lemma quiet_insert_ne h (i j : nat) s :
  i <> j -> quiet h j -> quiet (<[i := s]> h) j.
Proof.
  intros Hne (s0 & Hs0 & Hq). exists s0.
  split; [by rewrite lookup_insert_ne | exact Hq].
Qed.

(** When no [process] raises, every distinct entry is processed once, on
    the state it had before the dispatch. *)
Lemma process_each_all ids h :
  NoDup ids -> Forall (quiet h) ids ->
  snd (process_each ids name args h) = Ok tt /\
  forall id s, id ∈ ids -> h !! id = Some s ->
    fst (process_each ids name args h) !! id = Some (fst (process s name args)).
Proof.
  revert h. induction ids as [| j rest IH]; intros h Hnd Hq.
  - split; [reflexivity |]. intros id s Hin. by apply elem_of_nil in Hin.
  - apply NoDup_cons in Hnd as [Hj Hnd].
    apply Forall_cons in Hq as [(s & Hs & Hok) Hq].
    simpl. rewrite Hs.
    destruct (process s name args) as [s' r] eqn:Hp. simpl in Hok. subst r.
    assert (Hq' : Forall (quiet (<[j := s']> h)) rest).
    { apply Forall_forall. intros i Hi.
      apply quiet_insert_ne; [intros ->; contradiction |].
      by eapply Forall_forall in Hq. }
    destruct (IH (<[j := s']> h) Hnd Hq') as [Hr Hall].
    split; [exact Hr |].
    intros id s0 Hin Hs0.
    apply elem_of_cons in Hin as [-> | Hin].
    + rewrite process_each_not_visited by exact Hj.
      rewrite lookup_insert_eq. rewrite Hs in Hs0.
      injection Hs0 as <-. by rewrite Hp.
    + apply Hall; [exact Hin |].
      rewrite lookup_insert_ne; [exact Hs0 | intros ->; contradiction].
Qed.

(** A property of one object that [process] keeps is kept by the loop,
    whatever the other entries do and wherever the loop stops. *)
Lemma process_each_keeps (P : subscription -> Prop) ids h (id : nat) s :
  (forall s, P s -> P (fst (process s name args))) ->
  h !! id = Some s -> P s ->
  exists s', fst (process_each ids name args h) !! id = Some s' /\ P s'.
Proof.
  intros Hkeep. revert h s.
  induction ids as [| j rest IH]; intros h s Hs HP; [by exists s |].
  simpl. destruct (h !! j) as [sj |] eqn:Hj; [| by eapply IH].
  destruct (process sj name args) as [sj' r] eqn:Hp.
  assert (Hnew : exists s', <[j := sj']> h !! id = Some s' /\ P s').
  { destruct (decide (j = id)) as [-> | Hne].
    - exists sj'. rewrite lookup_insert_eq. split; [reflexivity |].
      rewrite Hs in Hj. injection Hj as <-.
      specialize (Hkeep s HP). by rewrite Hp in Hkeep.
    - exists s. by rewrite lookup_insert_ne. }
  destruct Hnew as (s' & Hs' & HP').
  destruct r as [[] | e]; [by eapply IH | by exists s'].
Qed.
End Dispatch.

Lemma process_events_event_list (m : EventMgr) name args :
  event_list (fst (process_events m name args)) = event_list m.
Proof.
  unfold process_events.
  by destruct (process_each (event_list m) name args (objects m)).
Qed.

Lemma process_events_objects (m : EventMgr) name args :
  objects (fst (process_events m name args)) =
    fst (process_each (event_list m) name args (objects m)).
Proof.
  unfold process_events.
  by destruct (process_each (event_list m) name args (objects m)).
Qed.

Lemma process_events_result (m : EventMgr) name args :
  snd (process_events m name args) =
    snd (process_each (event_list m) name args (objects m)).
Proof.
  unfold process_events.
  by destruct (process_each (event_list m) name args (objects m)).
Qed.

Lemma process_events_next_id (m : EventMgr) name args :
  next_id (fst (process_events m name args)) = next_id m.
Proof.
  unfold process_events.
  by destruct (process_each (event_list m) name args (objects m)).
Qed.

(** A one-shot waiter whose name and check accept the event. *)
Lemma DiscordEvent_process_match (e : _DiscordEvent) name args :
  event_name e = name ->
  match check e with Some chk => chk args = Ok true | None => True end ->
  DiscordEvent_process e name args = (ev_set (ev_with_return_value args e), Ok tt).
Proof.
  intros Hname Hchk. unfold DiscordEvent_process.
  rewrite (matches_event_same_name e name args Hname). simpl in *.
  destruct (ev_check e) as [chk |]; [rewrite Hchk |]; reflexivity.
Qed.

(** C8. A dispatch from which every [process] returns goes through the whole
    registry in insertion order: each registered object is processed, on the
    state it had, whatever the outcome for the others (the store afterwards is
    the one obtained by processing any front part of the list and then the
    rest); nothing else is written and the registry itself is unchanged.
    So every one-shot waiter registered for the name of the event, with no
    check or a check the arguments pass, ends up signalled and holding exactly
    the arguments of the event. *)
Theorem process_events_reaches_every_subscription :
  forall (m : EventMgr) name args,
    NoDup (event_list m) ->
    Forall (quiet name args (objects m)) (event_list m) ->
    let m' := fst (process_events m name args) in
    snd (process_events m name args) = Ok tt /\
    event_list m' = event_list m /\
    (forall id s, id ∈ event_list m -> objects m !! id = Some s ->
       objects m' !! id = Some (fst (process s name args))) /\
    (forall id, id ∉ event_list m -> objects m' !! id = objects m !! id) /\
    (forall before after, event_list m = before ++ after ->
       objects m' =
         fst (process_each after name args
                (fst (process_each before name args (objects m))))) /\
    (forall id e, id ∈ event_list m -> objects m !! id = Some (SEvent e) ->
       event_name e = name ->
       match check e with Some chk => chk args = Ok true | None => True end ->
       objects m' !! id = Some (SEvent (ev_set (ev_with_return_value args e))) /\
       is_set_at m' id = true /\
       return_value_at m' id = Some args).
Proof.
  intros m name args Hnd Hq m'. subst m'.
  destruct (process_each_all name args _ _ Hnd Hq) as [Hr Hall].
  rewrite process_events_result, process_events_event_list, process_events_objects.
  split; [exact Hr |]. split; [reflexivity |].
  split; [exact Hall |].
  split; [intros id Hid; by apply process_each_not_visited |].
  split.
  - intros before after Hsplit. rewrite Hsplit in Hnd, Hq |- *.
    apply NoDup_app in Hnd as (Hnd1 & _ & _).
    apply Forall_app in Hq as [Hq1 _].
    destruct (process_each_all name args _ _ Hnd1 Hq1) as [Hr1 _].
    rewrite process_each_app.
    destruct (process_each before name args (objects m)) as [h1 [[] | e]];
      [reflexivity | discriminate].
  - intros id e Hin He Hname Hchk.
    assert (Hobj : fst (process_each (event_list m) name args (objects m)) !! id
                   = Some (SEvent (ev_set (ev_with_return_value args e)))).
    { rewrite (Hall id _ Hin He). simpl.
      by rewrite (DiscordEvent_process_match e name args Hname Hchk). }
    unfold is_set_at, return_value_at.
    rewrite process_events_objects, Hobj. auto.
Qed.

Lemma process_events_reaches_every_subscription_witness :
  let m := fst (add_event (fst (add_event (fst (add_event new_EventMgr
             "on_ready" None)) "on_ready" None)) "on_ready" None) in
  let m' := fst (process_events m "on_ready" [VStr "payload"]) in
  event_list m' = [0; 1; 2] /\
  return_value_at m' 0 = Some [VStr "payload"] /\
  return_value_at m' 1 = Some [VStr "payload"] /\
  return_value_at m' 2 = Some [VStr "payload"].
Proof.
  intros m m'.
  assert (Hnd : NoDup (event_list m)).
  { apply (bool_decide_unpack _). vm_compute. exact I. }
  assert (Hq : Forall (quiet "on_ready" [VStr "payload"] (objects m)) (event_list m)).
  { repeat apply Forall_cons_2; [| | | apply Forall_nil_2];
      eexists; (split; [vm_compute; reflexivity | reflexivity]). }
  pose proof (process_events_reaches_every_subscription
                m "on_ready" [VStr "payload"] Hnd Hq) as (_ & Hl & _ & _ & _ & Hw).
  split; [exact Hl |].
  assert (Hin : forall id, id ∈ [0; 1; 2] -> id ∈ event_list m) by (intros id H; exact H).
  split; [| split].
  - refine (proj2 (proj2 (Hw 0 (new_DiscordEvent "on_ready" None) _ _ eq_refl I))).
    + apply Hin, elem_of_cons. by left.
    + vm_compute. reflexivity.
  - refine (proj2 (proj2 (Hw 1 (new_DiscordEvent "on_ready" None) _ _ eq_refl I))).
    + apply Hin. do 1 apply list_elem_of_further. apply elem_of_cons. by left.
    + vm_compute. reflexivity.
  - refine (proj2 (proj2 (Hw 2 (new_DiscordEvent "on_ready" None) _ _ eq_refl I))).
    + apply Hin. do 2 apply list_elem_of_further. apply elem_of_cons. by left.
    + vm_compute. reflexivity.
Defined.

(** A hundred one-shot waiters on one name, one dispatch: all are signalled
    and all hold the payload of the event. *)
Example hundred_waiters_one_dispatch :
  let m := Nat.iter 100 (fun m => fst (add_event m "on_ready" None)) new_EventMgr in
  let m' := fst (process_events m "on_ready" [VStr "payload"]) in
  length (event_list m') = 100 /\
  forallb (is_set_at m') (event_list m') = true /\
  forallb (fun id => bool_decide
             (return_value_at m' id = Some [VStr "payload"])) (event_list m') = true.
Proof. vm_compute. repeat split. Qed.

(** ** A check that raises *)

Lemma process_raising (s : subscription) name args chk e :
  listening s = true -> event_name s = name ->
  check s = Some chk -> chk args = Raise e ->
  process s name args = (set_return_value args s, Raise e).
Proof.
  intros Hlisten Hname Hchk Hraise. destruct s as [ev | l]; simpl in *.
  - unfold DiscordEvent_process.
    rewrite (@matches_event_same_name _ DiscordEvent_Subscription ev name args Hname).
    simpl. by rewrite Hchk, Hraise.
  - unfold LoopMgr_process. rewrite Hlisten. simpl.
    rewrite (@matches_event_same_name _ LoopMgr_Subscription l name args Hname).
    simpl. by rewrite Hchk, Hraise.
Qed.

Lemma return_value_set (s : subscription) args :
  return_value (set_return_value args s) = Some args.
Proof. by destruct s. Qed.

(** C10. When the check of a registered subscription raises on the
    arguments of a dispatch (and no earlier entry raised), [process_events]
    ends with that exception; the raising subscription already holds the
    arguments as [return_value]; the entries after it are not touched by this
    dispatch, the entries before it were processed. *)
Theorem raising_check_aborts_dispatch :
  forall (m : EventMgr) name args before id after s chk e,
    event_list m = before ++ id :: after ->
    NoDup (event_list m) ->
    Forall (quiet name args (objects m)) before ->
    objects m !! id = Some s ->
    listening s = true ->
    event_name s = name ->
    check s = Some chk ->
    chk args = Raise e ->
    let m' := fst (process_events m name args) in
    snd (process_events m name args) = Raise e /\
    objects m' !! id = Some (set_return_value args s) /\
    return_value_at m' id = Some args /\
    (forall j, j ∈ after -> objects m' !! j = objects m !! j) /\
    (forall j sj, j ∈ before -> objects m !! j = Some sj ->
       objects m' !! j = Some (fst (process sj name args))).
Proof.
  intros m name args before id after s chk e Hsplit Hnd Hq Hs Hl Hname Hchk Hraise m'.
  subst m'. rewrite process_events_result, process_events_objects.
  unfold return_value_at. rewrite process_events_objects.
  rewrite Hsplit in Hnd |- *.
  apply NoDup_app in Hnd as (Hnd1 & Hdisj & Hnd2).
  apply NoDup_cons in Hnd2 as [Hid_after _].
  assert (Hid_before : id ∉ before).
  { intros Hin. apply (Hdisj id Hin), elem_of_cons. by left. }
  destruct (process_each_all name args _ _ Hnd1 Hq) as [Hr1 Hall1].
  pose proof (process_each_not_visited name args before (objects m)) as Hout.
  rewrite process_each_app.
  destruct (process_each before name args (objects m)) as [h1 r1] eqn:Hbefore.
  simpl in Hr1, Hall1, Hout. subst r1. simpl.
  rewrite (Hout id Hid_before), Hs.
  rewrite (process_raising s name args chk e Hl Hname Hchk Hraise). simpl.
  rewrite lookup_insert_eq.
  split; [reflexivity |]. split; [reflexivity |]. split.
  { pose proof (return_value_set s args) as Hrv.
    destruct s; simpl in *; exact Hrv. }
  split.
  - intros j Hj.
    assert (j <> id) by (intros ->; contradiction).
    rewrite lookup_insert_ne by congruence.
    apply Hout. intros Hin. apply (Hdisj j Hin), elem_of_cons. by right.
  - intros j sj Hj Hsj.
    assert (j <> id) by (intros ->; contradiction).
    rewrite lookup_insert_ne by congruence. by apply Hall1.
Qed.

Lemma raising_check_aborts_dispatch_witness :
  let boom : Args -> result bool := fun _ => Raise (UserError "boom") in
  let m := fst (add_event (fst (add_event (fst (add_event new_EventMgr
             "on_msg" None)) "on_msg" (Some boom))) "on_msg" None) in
  let m' := fst (process_events m "on_msg" [VInt 5]) in
  snd (process_events m "on_msg" [VInt 5]) = Raise (UserError "boom") /\
  return_value_at m' 1 = Some [VInt 5] /\
  objects m' !! 2 = objects m !! 2 /\
  is_set_at m' 0 = true /\ is_set_at m' 2 = false.
Proof.
  intros boom m m'.
  assert (Hnd : NoDup (event_list m)).
  { apply (bool_decide_unpack _). vm_compute. exact I. }
  assert (Hq : Forall (quiet "on_msg" [VInt 5] (objects m)) [0]).
  { apply Forall_cons_2; [| apply Forall_nil_2].
    eexists. split; [vm_compute; reflexivity | reflexivity]. }
  assert (Hs : objects m !! 1 = Some (SEvent (new_DiscordEvent "on_msg" (Some boom)))).
  { vm_compute. reflexivity. }
  pose proof (raising_check_aborts_dispatch m "on_msg" [VInt 5] [0] 1 [2]
                _ boom (UserError "boom") eq_refl Hnd Hq Hs eq_refl eq_refl
                eq_refl eq_refl) as (Hr & _ & Hrv & Hafter & _).
  split; [exact Hr |]. split; [exact Hrv |]. split.
  - apply Hafter, elem_of_cons. by left.
  - split; vm_compute; reflexivity.
Defined.

(** ** What happens while a coroutine is suspended *)

Lemma deliver_event_list (ds : list (string * Args)) (m : EventMgr) :
  event_list (deliver ds m) = event_list m.
Proof.
  revert m. induction ds as [| d ds IH]; intros m; [reflexivity |].
  simpl. fold (deliver ds (fst (process_events m (fst d) (snd d)))).
  by rewrite IH, process_events_event_list.
Qed.

Lemma deliver_next_id (ds : list (string * Args)) (m : EventMgr) :
  next_id (deliver ds m) = next_id m.
Proof.
  revert m. induction ds as [| d ds IH]; intros m; [reflexivity |].
  simpl. fold (deliver ds (fst (process_events m (fst d) (snd d)))).
  by rewrite IH, process_events_next_id.
Qed.

(** A property of one object that every dispatch of [ds] keeps holds after
    all of them. *)
Lemma deliver_keeps (P : subscription -> Prop) (ds : list (string * Args))
    (m : EventMgr) (id : nat) (s : subscription) :
  Forall (fun d => forall s, P s -> P (fst (process s (fst d) (snd d)))) ds ->
  objects m !! id = Some s -> P s ->
  exists s', objects (deliver ds m) !! id = Some s' /\ P s'.
Proof.
  revert m s. induction ds as [| d ds IH]; intros m s Hkeep Hs HP.
  - by exists s.
  - apply Forall_cons in Hkeep as [Hd Hkeep]. simpl.
    fold (deliver ds (fst (process_events m (fst d) (snd d)))).
    destruct (process_each_keeps (fst d) (snd d) P (event_list m) (objects m)
                id s Hd Hs HP) as (s1 & Hs1 & HP1).
    apply (IH _ s1 Hkeep); [| exact HP1].
    by rewrite process_events_objects.
Qed.

Lemma run_dispatches (ds : list (string * Args)) (rest : list action)
    (m : EventMgr) (g : generator) :
  run (map (fun d => Dispatch (fst d) (snd d)) ds ++ rest) m g
    = run rest (deliver ds m) g.
Proof.
  revert m. induction ds as [| d ds IH]; intros m; [reflexivity |].
  simpl. rewrite IH. reflexivity.
Qed.

(** ** [wait_for] *)

(** A waiter that is not signalled stays so through a dispatch that does not
    match it. *)
Lemma unsignalled_process name chk (d : string * Args) (s : subscription) :
  matching name chk d = false ->
  unsignalled name chk s -> unsignalled name chk (fst (process s (fst d) (snd d))).
Proof.
  intros Hno (e & -> & Hname & Hchk & Hflag).
  unfold matching in Hno. simpl.
  unfold DiscordEvent_process, matches_event. simpl. rewrite Hname.
  destruct (String.eqb name (fst d)) eqn:Heq; simpl in *.
  - rewrite Hchk. destruct chk as [p |]; [| discriminate].
    destruct (p (snd d)) as [[|] | err]; try discriminate; simpl;
      by eexists; repeat split.
  - by exists e.
Qed.

Lemma add_event_spec (m : EventMgr) name chk :
  add_event m name chk =
    ({| objects := <[next_id m := SEvent (new_DiscordEvent name chk)]> (objects m);
        next_id := S (next_id m);
        event_list := event_list m ++ [next_id m] |}, next_id m).
Proof. reflexivity. Qed.

(** C2, what the code does. With a timeout, no cancellation and no matching
    dispatch while the caller is suspended, [wait_for] raises [TimeoutError];
    the waiter it registered is then still the last entry of [event_list]:
    the [raise] leaves before [self.event_list.remove(event)]. *)
Theorem wait_for_timeout_keeps_waiter_registered :
  forall (m : EventMgr) name chk (t : Z) (env : suspension),
    cancel env = false ->
    Forall (fun d => matching name chk d = false) (during env) ->
    snd (wait_for m name chk (Some t) env) = Failed (TimeoutError wait_for_timeout_msg) /\
    event_list (fst (wait_for m name chk (Some t) env)) = event_list m ++ [next_id m] /\
    snd (add_event m name chk) ∈ event_list (fst (wait_for m name chk (Some t) env)).
Proof.
  intros m name chk t env Hcancel Hno.
  unfold wait_for. rewrite add_event_spec.
  set (m1 := {| objects := _; next_id := _; event_list := _ |}).
  assert (Hflag : is_set_at (deliver (during env) m1) (next_id m) = false).
  { destruct (deliver_keeps (unsignalled name chk) (during env) m1 (next_id m)
                (SEvent (new_DiscordEvent name chk)))
      as (s' & Hs' & e & -> & _ & _ & Hunset).
    - eapply Forall_impl; [exact Hno |].
      intros d Hd s. by apply unsignalled_process.
    - apply lookup_insert_eq.
    - by eexists; repeat split.
    - unfold is_set_at. by rewrite Hs'. }
  unfold wake. rewrite Hcancel, Hflag. simpl.
  rewrite orb_true_r. simpl.
  rewrite deliver_event_list. simpl.
  split; [reflexivity |]. split; [reflexivity |].
  apply elem_of_app. right. apply elem_of_cons. by left.
Qed.

Lemma wait_for_timeout_keeps_waiter_registered_witness :
  let env := {| during := [("on_y", [VInt 1])];
                deadline_first := false; cancel := false |} in
  snd (wait_for new_EventMgr "on_x" None (Some 10%Z) env)
    = Failed (TimeoutError wait_for_timeout_msg) /\
  event_list (fst (wait_for new_EventMgr "on_x" None (Some 10%Z) env)) = [0].
Proof.
  intros env.
  assert (Hno : Forall (fun d => matching "on_x" None d = false) (during env)).
  { apply Forall_cons_2; [reflexivity | apply Forall_nil_2]. }
  pose proof (wait_for_timeout_keeps_waiter_registered
                new_EventMgr "on_x" None 10%Z env eq_refl Hno) as (Hr & Hl & _).
  split; [exact Hr | exact Hl].
Defined.

(** ** [loop_for]: the registry *)

Lemma drain_event_list (m : EventMgr) (g : generator) (id : nat) :
  event_list (fst (fst (drain m g id))) = event_list m.
Proof.
  unfold drain. destruct (lookup_loop m id) as [l |]; [| reflexivity].
  destruct (get_next l) as [l' [[item | []] |]]; reflexivity.
Qed.

Lemma on_timeout_event_list (m : EventMgr) (g : generator) (id : nat) :
  event_list (fst (fst (on_timeout m g id))) = event_list m.
Proof.
  unfold on_timeout. destruct (lookup_loop m id) as [l |]; [| reflexivity].
  by rewrite drain_event_list.
Qed.

Lemma iteration_event_list (env : resumption) (m : EventMgr) (g : generator) (id : nat) :
  event_list (fst (fst (iteration env m g id))) = event_list m.
Proof.
  unfold iteration.
  destruct (_lowest_value _) as [t | e]; [| reflexivity].
  destruct (t <=? 0)%Z; [apply on_timeout_event_list |].
  destruct (lookup_loop m id) as [l |]; [| reflexivity].
  destruct (get_next l) as [l' [[item | e] |]]; try reflexivity.
  set (m1 := deliver _ _).
  assert (Hm1 : event_list m1 = event_list m)
    by (subst m1; by rewrite deliver_event_list).
  destruct (wake _ _ _); try exact Hm1.
  - destruct (lookup_loop m1 id) as [l1 |]; [| exact Hm1].
    destruct (get_next_resume l1) as [l2 [item | e]]; exact Hm1.
  - by rewrite on_timeout_event_list.
Qed.

(** The only write to [event_list] in [loop_for] is the [append] at the start
    of the body. *)
Lemma anext_event_list (env : resumption) (m : EventMgr) (g : generator) :
  event_list (fst (fst (anext env m g))) =
    match pc g with
    | Created => event_list m ++ [next_id m]
    | _ => event_list m
    end.
Proof.
  unfold anext. destruct (pc g) as [| id start | id | id |]; try reflexivity.
  - simpl. by rewrite iteration_event_list.
  - destruct (loop_timeout g) as [t |]; [| reflexivity].
    destruct (_ <=? 0)%Z; [reflexivity | apply iteration_event_list].
  - apply drain_event_list.
Qed.

Lemma drain_started (m : EventMgr) (g : generator) (id : nat) :
  pc (snd (fst (drain m g id))) <> Created.
Proof.
  unfold drain. destruct (lookup_loop m id) as [l |]; [| discriminate].
  destruct (get_next l) as [l' [[item | []] |]]; discriminate.
Qed.

Lemma on_timeout_started (m : EventMgr) (g : generator) (id : nat) :
  pc (snd (fst (on_timeout m g id))) <> Created.
Proof.
  unfold on_timeout. destruct (lookup_loop m id) as [l |]; [| discriminate].
  apply drain_started.
Qed.

Lemma iteration_started (env : resumption) (m : EventMgr) (g : generator) (id : nat) :
  pc (snd (fst (iteration env m g id))) <> Created.
Proof.
  unfold iteration.
  destruct (_lowest_value _) as [t | e]; [| discriminate].
  destruct (t <=? 0)%Z; [apply on_timeout_started |].
  destruct (lookup_loop m id) as [l |]; [| discriminate].
  destruct (get_next l) as [l' [[item | e] |]]; try discriminate.
  destruct (wake _ _ _); try discriminate.
  - destruct (lookup_loop _ id) as [l1 |]; [| discriminate].
    destruct (get_next_resume l1) as [l2 [item | e]]; discriminate.
  - apply on_timeout_started.
Qed.

(** A generator never goes back to before its first request. *)
Lemma anext_started (env : resumption) (m : EventMgr) (g : generator) :
  pc (snd (fst (anext env m g))) <> Created.
Proof.
  unfold anext.
  destruct (pc g) as [| id start | id | id |] eqn:Hpc; simpl.
  - apply iteration_started.
  - destruct (loop_timeout g) as [t |]; [| discriminate].
    destruct (_ <=? 0)%Z; [discriminate | apply iteration_started].
  - apply drain_started.
  - by rewrite Hpc.
  - by rewrite Hpc.
Qed.

Lemma run_event_list (acts : list action) (m : EventMgr) (g : generator) :
  pc g <> Created ->
  event_list (fst (fst (run acts m g))) = event_list m.
Proof.
  revert m g. induction acts as [| a acts IH]; intros m g Hpc; [reflexivity |].
  destruct a as [name args | env |]; simpl.
  - rewrite IH by exact Hpc. apply process_events_event_list.
  - pose proof (anext_event_list env m g) as Hl.
    pose proof (anext_started env m g) as Hs.
    destruct (anext env m g) as [[m1 g1] r]. simpl in Hl, Hs.
    specialize (IH m1 g1 Hs).
    destruct (run acts m1 g1) as [[m2 g2] rs]. simpl in *.
    rewrite IH, Hl. destruct (pc g); congruence.
  - apply IH. discriminate.
Qed.

Lemma lookup_loop_store (m : EventMgr) (id : nat) (l : _LoopMgr) :
  lookup_loop (store id (SLoop l) m) id = Some l.
Proof. unfold lookup_loop, store. simpl. by rewrite lookup_insert_eq. Qed.

Lemma get_next_event_name (l : _LoopMgr) :
  lm_event_name (fst (get_next l)) = lm_event_name l.
Proof.
  unfold get_next, popleft. destruct (events l); [| reflexivity].
  by destruct (can_expand l).
Qed.

Lemma get_next_resume_event_name (l : _LoopMgr) :
  lm_event_name (fst (get_next_resume l)) = lm_event_name l.
Proof. unfold get_next_resume, popleft. by destruct (events l). Qed.

Lemma LoopMgr_process_event_name (l : _LoopMgr) name args :
  lm_event_name (fst (LoopMgr_process l name args)) = lm_event_name l.
Proof.
  unfold LoopMgr_process, matches_event. simpl.
  destruct (can_expand l); [| reflexivity]. simpl.
  destruct (negb _); [reflexivity |].
  destruct (lm_check l) as [chk |]; [| reflexivity].
  by destruct (chk args) as [[|] | e].
Qed.

Lemma named_at_deliver name (ds : list (string * Args)) (m : EventMgr) (id : nat) :
  named_at name m id -> named_at name (deliver ds m) id.
Proof.
  intros (l & Hl & Hname). unfold named_at, lookup_loop in *.
  destruct (objects m !! id) as [[e | l0] |] eqn:Hs; try discriminate.
  injection Hl as ->.
  destruct (deliver_keeps (fun s => exists l, s = SLoop l /\ lm_event_name l = name)
              ds m id (SLoop l)) as (s' & Hs' & l' & -> & Hname').
  - apply Forall_forall. intros d _ s (l1 & -> & Hn1). simpl.
    pose proof (LoopMgr_process_event_name l1 (fst d) (snd d)) as Hp.
    destruct (LoopMgr_process l1 (fst d) (snd d)) as [l2 r]. simpl in *.
    exists l2. split; [reflexivity | congruence].
  - exact Hs.
  - by exists l.
  - exists l'. by rewrite Hs'.
Qed.

Lemma named_at_store name (m : EventMgr) (id id0 : nat) (l l' : _LoopMgr) :
  named_at name m id0 ->
  lookup_loop m id = Some l -> lm_event_name l' = lm_event_name l ->
  named_at name (store id (SLoop l') m) id0.
Proof.
  intros (l0 & Hl0 & Hname) Hl Hsame.
  destruct (decide (id = id0)) as [-> | Hne].
  - exists l'. split; [apply lookup_loop_store | congruence].
  - exists l0. split; [| exact Hname].
    unfold lookup_loop, store in *. simpl. by rewrite lookup_insert_ne.
Qed.

Lemma named_at_drain name (m : EventMgr) (g : generator) (id id0 : nat) :
  named_at name m id0 -> named_at name (fst (fst (drain m g id))) id0.
Proof.
  intros Hm. unfold drain.
  destruct (lookup_loop m id) as [l |] eqn:Hl; [| exact Hm].
  pose proof (get_next_event_name l) as Hn.
  destruct (get_next l) as [l' [[item | []] |]]; simpl in *;
    by apply (named_at_store name m id id0 l l').
Qed.

Lemma named_at_on_timeout name (m : EventMgr) (g : generator) (id id0 : nat) :
  named_at name m id0 -> named_at name (fst (fst (on_timeout m g id))) id0.
Proof.
  intros Hm. unfold on_timeout.
  destruct (lookup_loop m id) as [l |] eqn:Hl; [| exact Hm].
  apply named_at_drain. by apply (named_at_store name m id id0 l).
Qed.

Lemma named_at_iteration name (env : resumption) (m : EventMgr) (g : generator)
    (id id0 : nat) :
  named_at name m id0 -> named_at name (fst (fst (iteration env m g id))) id0.
Proof.
  intros Hm. unfold iteration.
  destruct (_lowest_value _) as [t | e]; [| exact Hm].
  destruct (t <=? 0)%Z; [by apply named_at_on_timeout |].
  destruct (lookup_loop m id) as [l |] eqn:Hl; [| exact Hm].
  pose proof (get_next_event_name l) as Hn.
  pose proof (fun l' H => named_at_store name m id id0 l l' Hm Hl H) as Hstore.
  destruct (get_next l) as [l' [[item | e] |]]; simpl in Hn;
    try (by apply Hstore).
  set (m1 := deliver _ _).
  assert (Hm1 : named_at name m1 id0) by (by apply named_at_deliver, Hstore).
  destruct (wake _ _ _); try exact Hm1.
  - destruct (lookup_loop m1 id) as [l1 |] eqn:Hl1; [| exact Hm1].
    pose proof (get_next_resume_event_name l1) as Hn1.
    destruct (get_next_resume l1) as [l2 [item | e]]; simpl in Hn1;
      by apply (named_at_store name m1 id id0 l1 l2).
  - by apply named_at_on_timeout.
Qed.

Lemma named_at_anext name (env : resumption) (m : EventMgr) (g : generator)
    (id0 : nat) :
  pc g <> Created ->
  named_at name m id0 -> named_at name (fst (fst (anext env m g))) id0.
Proof.
  intros Hpc Hm. unfold anext.
  destruct (pc g) as [| id start | id | id |]; try exact Hm.
  - contradiction.
  - destruct (loop_timeout g) as [t |]; [| exact Hm].
    destruct (_ <=? 0)%Z; [exact Hm | by apply named_at_iteration].
  - by apply named_at_drain.
Qed.

Lemma named_at_process_events name (m : EventMgr) n args (id0 : nat) :
  named_at name m id0 -> named_at name (fst (process_events m n args)) id0.
Proof. apply (named_at_deliver name [(n, args)] m id0). Qed.

Lemma named_at_run name (acts : list action) (m : EventMgr) (g : generator)
    (id0 : nat) :
  pc g <> Created ->
  named_at name m id0 -> named_at name (fst (fst (run acts m g))) id0.
Proof.
  revert m g. induction acts as [| a acts IH]; intros m g Hpc Hm; [exact Hm |].
  destruct a as [n args | env |]; simpl.
  - apply IH; [exact Hpc | by apply named_at_process_events].
  - pose proof (named_at_anext name env m g id0 Hpc Hm) as Hm1.
    pose proof (anext_started env m g) as Hs.
    destruct (anext env m g) as [[m1 g1] r]. simpl in Hm1, Hs.
    specialize (IH m1 g1 Hs Hm1).
    by destruct (run acts m1 g1) as [[m2 g2] rs].
  - apply IH; [discriminate | exact Hm].
Qed.

(** C1, what the code does. Whatever the first request gives and whatever
    the consumer and the event source do afterwards (requests up to the end
    of the sequence, by the budget running out or by [TimeoutError]; closing
    or cancelling), [event_list] is the registry of before with the
    [_LoopMgr] of this call appended: [loop_for] has no statement that removes
    it. *)
Theorem loop_for_never_deregisters :
  forall (m : EventMgr) name chk it lt (env : resumption) (acts : list action),
    let first := anext env m (loop_for name chk it lt) in
    let final := run acts (fst (fst first)) (snd (fst first)) in
    event_list (fst (fst final)) = event_list m ++ [next_id m] /\
    next_id m ∈ event_list (fst (fst final)) /\
    named_at name (fst (fst final)) (next_id m).
Proof.
  intros m name chk it lt env acts first final.
  assert (Hl : event_list (fst (fst final)) = event_list m ++ [next_id m]).
  { subst final. rewrite run_event_list by apply anext_started.
    subst first. by rewrite anext_event_list. }
  split; [exact Hl |]. split.
  - rewrite Hl. apply elem_of_app. right. apply elem_of_cons. by left.
  - subst final. apply named_at_run; [apply anext_started |].
    subst first. unfold anext. simpl. apply named_at_iteration.
    exists (new_LoopMgr name chk). split; [| reflexivity].
    unfold lookup_loop, append. simpl. by rewrite lookup_insert_eq.
Qed.

(** The three ways a sequence ends, on an empty manager: the budget runs out
    after an item, the wait times out, the consumer closes the generator.
    Each time the [_LoopMgr] stays in [event_list]. *)
Example loop_for_ends_still_registered :
  let arrival := {| during := [("on_msg", [VInt 1])];
                    deadline_first := false; cancel := false |} in
  let silence := {| during := []; deadline_first := false; cancel := false |} in
  let at_ t s := {| clock_now := t; clock_start := t; susp := s |} in
  let g := loop_for "on_msg" None None (Some 5%Z) in
  let ends acts :=
    let '(m, g, rs) := run acts new_EventMgr g in (event_list m, pc g, rs) in
  ends [Next (at_ 0%Z arrival); Next (at_ 9%Z silence)]
    = ([0], Finished, [Yield [VInt 1]; StopAsyncIteration]) /\
  ends [Next (at_ 0%Z silence)]
    = ([0], Finished, [Error (TimeoutError loop_timeout_msg)]) /\
  ends [Next (at_ 0%Z arrival); Close]
    = ([0], Finished, [Yield [VInt 1]]).
Proof. vm_compute. repeat split. Qed.

(** ** [loop_for]: absent bounds *)

Lemma lowest_value_none : _lowest_value [None; None] = Raise ValueError.
Proof. reflexivity. Qed.

(** C3, what the code does. With both bounds absent the first request fails:
    [_lowest_value(None, None)] is [min([])], a [ValueError], which the
    handler for [TimeoutError] does not catch. The same happens when the
    bounds are [0]. *)
Theorem loop_for_without_bounds_raises :
  forall (m : EventMgr) name chk (env : resumption),
    snd (anext env m (loop_for name chk None None)) = Error ValueError /\
    pc (snd (fst (anext env m (loop_for name chk None None)))) = Finished /\
    snd (anext env m (loop_for name chk (Some 0%Z) (Some 0%Z))) = Error ValueError.
Proof. intros m name chk env. repeat split. Qed.

(** The assignment to [loop_timeout] is the only one, and it needs a
    number. *)
Lemma anext_loop_timeout_absent (env : resumption) (m : EventMgr) (g : generator) :
  loop_timeout g = None -> loop_timeout (snd (fst (anext env m g))) = None.
Proof.
  intros Hlt. unfold anext.
  assert (Hd : forall m id, loop_timeout (snd (fst (drain m g id))) = None).
  { intros m0 id. unfold drain. destruct (lookup_loop m0 id) as [l |]; [| exact Hlt].
    destruct (get_next l) as [l' [[item | []] |]]; exact Hlt. }
  assert (Ht : forall m id, loop_timeout (snd (fst (on_timeout m g id))) = None).
  { intros m0 id. unfold on_timeout.
    destruct (lookup_loop m0 id) as [l |]; [apply Hd | exact Hlt]. }
  destruct (pc g) as [| id start | id | id |]; try exact Hlt.
  - simpl. unfold iteration.
    destruct (_lowest_value _) as [t | e]; [| exact Hlt].
    destruct (t <=? 0)%Z; [apply Ht |].
    destruct (lookup_loop _ _) as [l |]; [| exact Hlt].
    destruct (get_next l) as [l' [[item | e] |]]; try exact Hlt.
    destruct (wake _ _ _); try exact Hlt; [| apply Ht].
    destruct (lookup_loop _ _) as [l1 |]; [| exact Hlt].
    destruct (get_next_resume l1) as [l2 [item | e]]; exact Hlt.
  - rewrite Hlt. exact Hlt.
  - apply Hd.
Qed.

Lemma run_loop_timeout_absent (acts : list action) (m : EventMgr) (g : generator) :
  loop_timeout g = None -> loop_timeout (snd (fst (run acts m g))) = None.
Proof.
  revert m g. induction acts as [| a acts IH]; intros m g Hlt; [exact Hlt |].
  destruct a as [n args | env |]; simpl.
  - by apply IH.
  - pose proof (anext_loop_timeout_absent env m g Hlt) as H1.
    destruct (anext env m g) as [[m1 g1] r]. simpl in H1.
    specialize (IH m1 g1 H1). by destruct (run acts m1 g1) as [[m2 g2] rs].
  - by apply IH.
Qed.

(** C4, what the code does. A generator made with [loop_timeout=None] that
    has yielded an item from its outer loop fails at the next request:
    [loop_timeout -= loop.time() - start_time] is a [TypeError] on [None]. *)
Theorem absent_loop_timeout_raises_after_item :
  forall (m : EventMgr) name chk it (acts : list action) (env : resumption) id start,
    let before := run acts m (loop_for name chk it None) in
    pc (snd (fst before)) = AtYield id start ->
    snd (anext env (fst (fst before)) (snd (fst before))) = Error TypeError /\
    pc (snd (fst (anext env (fst (fst before)) (snd (fst before))))) = Finished.
Proof.
  intros m name chk it acts env id start before Hpc.
  pose proof (run_loop_timeout_absent acts m (loop_for name chk it None) eq_refl)
    as Hlt.
  fold before in Hlt. unfold anext. rewrite Hpc, Hlt. by split.
Qed.

Lemma absent_loop_timeout_raises_after_item_witness :
  let arrival := {| during := [("on_msg", [VInt 1])];
                    deadline_first := false; cancel := false |} in
  let env := {| clock_now := 0; clock_start := 0; susp := arrival |} in
  let before := run [Next env] new_EventMgr (loop_for "on_msg" None (Some 5%Z) None) in
  snd before = [Yield [VInt 1]] /\
  snd (anext env (fst (fst before)) (snd (fst before))) = Error TypeError.
Proof.
  intros arrival env before. split; [vm_compute; reflexivity |].
  refine (proj1 (absent_loop_timeout_raises_after_item new_EventMgr "on_msg" None
                   (Some 5%Z) [Next env] env 0 0%Z _)).
  vm_compute. reflexivity.
Defined.

(** ** [wait_for]: the value returned *)

Lemma DiscordEvent_process_records (e : _DiscordEvent) name args :
  event_name e = name ->
  ev_return_value (fst (DiscordEvent_process e name args)) = Some args /\
  (ev_is_set e = true -> ev_is_set (fst (DiscordEvent_process e name args)) = true).
Proof.
  intros Hname. unfold DiscordEvent_process.
  rewrite (@matches_event_same_name _ DiscordEvent_Subscription e name args Hname).
  simpl. destruct (ev_check e) as [chk |]; [| by split].
  destruct (chk args) as [[|] | err]; by split.
Qed.

(** C5, what the code does. A signalled waiter that is still registered
    records the arguments of every later dispatch with its name, whatever its
    check says of them, and stays signalled; [wait_for] returns what is
    recorded when the caller runs again. With two dispatches before that, the
    caller gets the arguments of the second: also when its own check rejects
    them. *)
Theorem wait_for_returns_latest_capture :
  (forall (e : _DiscordEvent) name args,
      event_name e = name -> ev_is_set e = true ->
      ev_return_value (fst (DiscordEvent_process e name args)) = Some args /\
      ev_is_set (fst (DiscordEvent_process e name args)) = true)
  /\
  (let only_one : Args -> result bool := fun a => Ok (bool_decide (a = [VInt 1])) in
   let env := {| during := [("on_x", [VInt 1]); ("on_x", [VInt 2])];
                 deadline_first := false; cancel := false |} in
   snd (wait_for new_EventMgr "on_x" None None env) = Returned (Some [VInt 2]) /\
   snd (wait_for new_EventMgr "on_x" (Some only_one) None env)
     = Returned (Some [VInt 2]) /\
   only_one [VInt 2] = Ok false).
Proof.
  split.
  - intros e name args Hname Hset.
    destruct (DiscordEvent_process_records e name args Hname) as [Hrv Hkeep].
    auto.
  - vm_compute. repeat split.
Qed.

Lemma wait_for_returns_latest_capture_witness :
  let e := ev_set (ev_with_return_value [VInt 1] (new_DiscordEvent "on_x" None)) in
  ev_return_value (fst (DiscordEvent_process e "on_x" [VInt 2])) = Some [VInt 2].
Proof.
  intros e.
  exact (proj1 (proj1 wait_for_returns_latest_capture e "on_x" [VInt 2]
                  eq_refl eq_refl)).
Defined.

(** ** [loop_for]: draining after a timeout *)

Lemma rounds_cons (ds : list (string * Args)) (env : resumption)
    (steps : list (list (string * Args) * resumption)) :
  rounds ((ds, env) :: steps) =
    map (fun d => Dispatch (fst d) (snd d)) ds ++ Next env :: rounds steps.
Proof. unfold rounds. simpl. by rewrite <- app_assoc. Qed.

Lemma run_next (env : resumption) (rest : list action) (m : EventMgr) (g : generator) :
  snd (run (Next env :: rest) m g) =
    snd (anext env m g)
      :: snd (run rest (fst (fst (anext env m g))) (snd (fst (anext env m g)))).
Proof.
  simpl. destruct (anext env m g) as [[m1 g1] r]. simpl.
  by destruct (run rest m1 g1) as [[m2 g2] rs].
Qed.

(** Dispatches do not change a closed waiter. *)
Lemma deliver_closed (ds : list (string * Args)) (m : EventMgr) (id : nat)
    (l : _LoopMgr) :
  lookup_loop m id = Some l -> can_expand l = false ->
  lookup_loop (deliver ds m) id = Some l.
Proof.
  intros Hl Hc. unfold lookup_loop in *.
  destruct (objects m !! id) as [[e | l0] |] eqn:Hs; try discriminate.
  injection Hl as ->.
  destruct (deliver_keeps (fun s => s = SLoop l) ds m id (SLoop l))
    as (s' & Hs' & ->); [| exact Hs | reflexivity | by rewrite Hs'].
  apply Forall_forall. intros d _ s ->. simpl.
  by rewrite LoopMgr_process_closed.
Qed.

(** The drain loop gives the queue of a closed waiter front to back, then
    [TimeoutError], whatever is dispatched between two requests. *)
Lemma drain_rounds (q : list Args) :
  forall (m : EventMgr) (g : generator) (id : nat) (l : _LoopMgr)
         (steps : list (list (string * Args) * resumption)),
    lookup_loop m id = Some l -> can_expand l = false -> events l = q ->
    length steps = length q ->
    snd (drain m g id)
      :: snd (run (rounds steps) (fst (fst (drain m g id))) (snd (fst (drain m g id))))
    = map Yield q ++ [Error (TimeoutError loop_timeout_msg)].
Proof.
  induction q as [| item q IH]; intros m g id l steps Hl Hc Hq Hlen.
  - destruct steps; [| discriminate].
    unfold drain. rewrite Hl, (get_next_closed l Hc), Hq. reflexivity.
  - destruct steps as [| [ds env] steps]; [discriminate |].
    injection Hlen as Hlen.
    unfold drain at 1 2 3. rewrite Hl, (get_next_closed l Hc), Hq. simpl.
    f_equal.
    rewrite rounds_cons, run_dispatches, run_next.
    set (m1 := deliver ds (store id (SLoop (lm_with_events q l)) m)).
    assert (Hl1 : lookup_loop m1 id = Some (lm_with_events q l)).
    { apply deliver_closed; [apply lookup_loop_store | exact Hc]. }
    unfold anext. simpl.
    by apply (IH m1 _ id (lm_with_events q l) steps).
Qed.

(** C6. A waiter that cannot expand ignores every dispatch, also one that
    would match; its [get_next] pops the queue front first and raises
    [LoopEmptyError] only on an empty queue. So when the bounded wait of
    [loop_for] times out, the consumer still gets every queued item, in
    order, whatever is dispatched in between, and then [TimeoutError]. *)
Theorem timeout_drains_backlog :
  (forall (l : _LoopMgr) name args,
      can_expand l = false -> LoopMgr_process l name args = (l, Ok tt)) /\
  (forall (l : _LoopMgr),
      can_expand l = false ->
      get_next l =
        match events l with
        | [] => (l, Ready (Raise LoopEmptyError))
        | item :: rest => (lm_with_events rest l, Ready (Ok item))
        end) /\
  (forall (m : EventMgr) (g : generator) (id : nat) (l : _LoopMgr) steps,
      lookup_loop m id = Some l ->
      length steps = length (events l) ->
      after_timeout m g id steps =
        map Yield (events l) ++ [Error (TimeoutError loop_timeout_msg)]) /\
  (forall (m : EventMgr) (g : generator) (id : nat) (l : _LoopMgr) steps,
      pc g = AtDrainYield id ->
      lookup_loop m id = Some l -> can_expand l = false ->
      length steps = S (length (events l)) ->
      snd (run (rounds steps) m g) =
        map Yield (events l) ++ [Error (TimeoutError loop_timeout_msg)]).
Proof.
  split; [exact LoopMgr_process_closed |].
  split; [exact get_next_closed |].
  split.
  - intros m g id l steps Hl Hlen. unfold after_timeout, on_timeout. rewrite Hl.
    set (m0 := store id (SLoop (lm_with_can_expand false l)) m).
    pose proof (drain_rounds (events l) m0 g id (lm_with_can_expand false l) steps
                  (lookup_loop_store m id _) eq_refl eq_refl Hlen) as Hd.
    by destruct (drain m0 g id) as [[m1 g1] r].
  - intros m g id l steps Hpc Hl Hc Hlen.
    destruct steps as [| [ds env] steps]; [discriminate |].
    injection Hlen as Hlen.
    rewrite rounds_cons, run_dispatches, run_next.
    unfold anext. rewrite Hpc.
    apply (drain_rounds (events l) _ g id l steps); auto.
    by apply deliver_closed.
Qed.

Lemma timeout_drains_backlog_witness :
  let m := deliver [("on_msg", [VInt 1]); ("on_msg", [VInt 2])]
             (append 0 (fst (alloc (SLoop (new_LoopMgr "on_msg" None)) new_EventMgr))) in
  let g := with_pc (Running 0) (loop_for "on_msg" None None (Some 5%Z)) in
  let env := {| clock_now := 6; clock_start := 6;
                susp := {| during := []; deadline_first := false; cancel := false |} |} in
  after_timeout m g 0 [([("on_msg", [VInt 3])], env); ([], env)]
    = [Yield [VInt 1]; Yield [VInt 2]; Error (TimeoutError loop_timeout_msg)].
Proof.
  intros m g env.
  exact (proj1 (proj2 (proj2 timeout_drains_backlog)) m g 0
           {| lm_event_name := "on_msg"; lm_check := None;
              lm_return_value := Some [VInt 2]; can_expand := true;
              events := [[VInt 1]; [VInt 2]]; wait := true |}
           [([("on_msg", [VInt 3])], env); ([], env)]
           ltac:(vm_compute; reflexivity) eq_refl).
Defined.

(** Two runs of [loop_for(name, None, None, 5)] on an empty manager.
    In the first, events arrive at times 1 and 2 and none before the budget
    is used up: both are yielded, then the sequence fails, and an event
    dispatched later is not queued. In the second, two events arrive but the
    deadline fires before the woken [get_next] runs: both are still yielded,
    the event dispatched after the timeout is not. *)
Example loop_for_timeout_runs :
  let quiet_ := fun ds first =>
    {| during := ds; deadline_first := first; cancel := false |} in
  let at_ := fun t s => {| clock_now := t; clock_start := t; susp := s |} in
  let g := loop_for "on_msg" None None (Some 5%Z) in
  let out acts :=
    let '(m, g, rs) := run acts new_EventMgr g in
    (rs, option_map events (lookup_loop m 0), event_list m) in
  out [Next (at_ 0%Z (quiet_ [("on_msg", [VInt 1])] false));
       Next (at_ 1%Z (quiet_ [("on_msg", [VInt 2])] false));
       Next (at_ 2%Z (quiet_ [] false));
       Dispatch "on_msg" [VInt 3]]
    = ([Yield [VInt 1]; Yield [VInt 2]; Error (TimeoutError loop_timeout_msg)],
       Some [], [0]) /\
  out [Next (at_ 0%Z (quiet_ [("on_msg", [VInt 1]); ("on_msg", [VInt 2])] true));
       Dispatch "on_msg" [VInt 3];
       Next (at_ 6%Z (quiet_ [] false));
       Next (at_ 7%Z (quiet_ [] false))]
    = ([Yield [VInt 1]; Yield [VInt 2]; Error (TimeoutError loop_timeout_msg)],
       Some [], [0]).
Proof. vm_compute. split; reflexivity. Qed.

(** ** Dispatches that do not match, and the successful [wait_for] *)

Lemma process_no_match (s : subscription) name args :
  matching (event_name s) (check s) (name, args) = false ->
  signal (fst (process s name args)) = signal s /\
  queue (fst (process s name args)) = queue s /\
  event_name (fst (process s name args)) = event_name s /\
  check (fst (process s name args)) = check s.
Proof.
  unfold matching. simpl. intros Hno.
  destruct s as [e | l]; simpl in *.
  - unfold DiscordEvent_process, matches_event. simpl.
    destruct (String.eqb (ev_event_name e) name); simpl in *; [| done].
    destruct (ev_check e) as [chk |] eqn:Hc; [| discriminate].
    destruct (chk args) as [[|] | err]; simpl in *; done.
  - unfold LoopMgr_process, matches_event. simpl.
    destruct (can_expand l); simpl; [| done].
    destruct (String.eqb (lm_event_name l) name); simpl in *; [| done].
    destruct (lm_check l) as [chk |] eqn:Hc; [| discriminate].
    destruct (chk args) as [[|] | err]; simpl in *; done.
Qed.

(** A dispatch with another name, or one the check of the subscription does
    not accept, neither raises the signal of that subscription nor queues
    anything for it, whatever else is registered. *)
Theorem dispatch_without_match_leaves_waiter :
  forall (m : EventMgr) name args (id : nat) (s : subscription),
    objects m !! id = Some s ->
    matching (event_name s) (check s) (name, args) = false ->
    exists s', objects (fst (process_events m name args)) !! id = Some s' /\
               signal s' = signal s /\ queue s' = queue s.
Proof.
  intros m name args id s Hs Hno. rewrite process_events_objects.
  destruct (process_each_keeps name args
              (fun s0 => signal s0 = signal s /\ queue s0 = queue s /\
                         event_name s0 = event_name s /\ check s0 = check s)
              (event_list m) (objects m) id s)
    as (s' & Hs' & Hsig & Hq & _); [| exact Hs | done | by exists s'].
  intros s0 (Hsig & Hq & Hn & Hc).
  destruct (process_no_match s0 name args) as (H1 & H2 & H3 & H4);
    [by rewrite Hn, Hc |].
  repeat split; congruence.
Qed.

Lemma dispatch_without_match_leaves_waiter_witness :
  let never : Args -> result bool := fun _ => Ok false in
  let m := append 1 (fst (alloc (SLoop (new_LoopMgr "on_msg" (Some never)))
             (fst (add_event new_EventMgr "on_ready" None)))) in
  exists s', objects (fst (process_events m "on_msg" [VInt 1])) !! 1 = Some s' /\
             signal s' = false /\ queue s' = [].
Proof.
  intros never m.
  exact (dispatch_without_match_leaves_waiter m "on_msg" [VInt 1] 1
           (SLoop (new_LoopMgr "on_msg" (Some never)))
           ltac:(vm_compute; reflexivity) eq_refl).
Defined.

Lemma list_remove_last (x : nat) (l : list nat) :
  x ∉ l -> list_remove x (l ++ [x]) = Ok l.
Proof.
  induction l as [| y l IH]; intros Hnot; simpl.
  - by rewrite Nat.eqb_refl.
  - apply not_elem_of_cons in Hnot as [Hne Hnot].
    destruct (Nat.eqb_spec y x) as [-> | _]; [done |].
    by rewrite IH.
Qed.

(** When the waiter is signalled and no deadline is set, [wait_for] returns
    what the waiter holds and takes it out of [event_list]: on a manager
    whose registry does not already hold the new identity, the registry is
    the one from before the call. *)
Theorem wait_for_success_deregisters :
  forall (m : EventMgr) name chk (env : suspension),
    next_id m ∉ event_list m ->
    cancel env = false ->
    is_set_at (deliver (during env) (fst (add_event m name chk))) (next_id m) = true ->
    event_list (fst (wait_for m name chk None env)) = event_list m /\
    snd (wait_for m name chk None env) =
      Returned (return_value_at
                  (deliver (during env) (fst (add_event m name chk))) (next_id m)).
Proof.
  intros m name chk env Hfresh Hcancel Hset.
  unfold wait_for. rewrite add_event_spec in *. simpl in Hset.
  unfold wake. rewrite Hcancel, Hset.
  rewrite deliver_event_list. simpl.
  by rewrite (list_remove_last _ _ Hfresh).
Qed.

Lemma wait_for_success_deregisters_witness :
  let env := {| during := [("on_ready", [VStr "payload"])];
                deadline_first := false; cancel := false |} in
  event_list (fst (wait_for new_EventMgr "on_ready" None None env)) = [] /\
  snd (wait_for new_EventMgr "on_ready" None None env)
    = Returned (Some [VStr "payload"]).
Proof.
  intros env.
  exact (wait_for_success_deregisters new_EventMgr "on_ready" None env
           ltac:(apply not_elem_of_nil) eq_refl ltac:(vm_compute; reflexivity)).
Defined.

(** ** [_lowest_value] *)

Lemma truthy_values_elem (args : list (option Z)) (v : Z) :
  v ∈ truthy_values args <-> Some v ∈ args /\ v <> 0%Z.
Proof.
  induction args as [| a args IH]; simpl.
  - split; [intros H; by apply elem_of_nil in H |].
    intros [H _]. by apply elem_of_nil in H.
  - destruct a as [z |].
    + destruct (Z.eqb_spec z 0) as [-> | Hz]; simpl.
      * rewrite IH, elem_of_cons. split; [intros [H1 H2]; auto |].
        intros [[H | H] Hv]; [congruence | auto].
      * rewrite !elem_of_cons, IH. split.
        -- intros [-> | [H1 H2]]; auto.
        -- intros [[H | H] Hv]; [left; congruence | auto].
    + rewrite IH, elem_of_cons. split; [intros [H1 H2]; auto |].
      intros [[H | H] Hv]; [discriminate | auto].
Qed.

Lemma fold_min_least (rest : list Z) (x : Z) :
  (fold_left Z.min rest x ∈ x :: rest) /\
  (forall w, w ∈ x :: rest -> (fold_left Z.min rest x <= w)%Z).
Proof.
  revert x. induction rest as [| y rest IH]; intros x; simpl.
  - split; [apply elem_of_cons; by left |].
    intros w Hw. apply elem_of_cons in Hw as [-> | Hw]; [lia |].
    by apply elem_of_nil in Hw.
  - destruct (IH (Z.min x y)) as [Hin Hle]. split.
    + apply elem_of_cons in Hin as [Heq | Hin].
      * rewrite Heq. destruct (Z.min_spec x y) as [[_ ->] | [_ ->]].
        -- apply elem_of_cons. by left.
        -- apply elem_of_cons. right. apply elem_of_cons. by left.
      * apply elem_of_cons. right. apply elem_of_cons. by right.
    + intros w Hw.
      assert (Hm : (fold_left Z.min rest (Z.min x y) <= Z.min x y)%Z).
      { apply Hle, elem_of_cons. by left. }
      apply elem_of_cons in Hw as [-> | Hw]; [lia |].
      apply elem_of_cons in Hw as [-> | Hw]; [lia |].
      apply Hle, elem_of_cons. by right.
Qed.

(** [_lowest_value] gives the least of the arguments that are neither
    [None] nor [0], and raises [ValueError] exactly when there is no such
    argument; it raises nothing else. A bound of [0] is skipped like an
    absent one, and a negative bound wins over every positive one. *)
Theorem lowest_value_least_truthy :
  forall (args : list (option Z)),
    (forall v, _lowest_value args = Ok v <->
               Some v ∈ args /\ v <> 0%Z /\
               forall w, Some w ∈ args -> w <> 0%Z -> (v <= w)%Z) /\
    (_lowest_value args = Raise ValueError <->
     forall a, a ∈ args -> truthy a = false) /\
    (forall e, _lowest_value args = Raise e -> e = ValueError).
Proof.
  intros args. unfold _lowest_value, py_min.
  pose proof (truthy_values_elem args) as Helem.
  destruct (truthy_values args) as [| x rest] eqn:Htv.
  - assert (Hnone : forall a, a ∈ args -> truthy a = false).
    { intros [z |] Ha; [| reflexivity]. simpl.
      destruct (Z.eqb_spec z 0) as [_ | Hz]; [reflexivity |].
      exfalso. eapply elem_of_nil, Helem. eauto. }
    split; [| split].
    + intros v. split; [discriminate |].
      intros (Hin & Hv & _). specialize (Hnone _ Hin). simpl in Hnone.
      apply negb_false_iff, Z.eqb_eq in Hnone. contradiction.
    + split; auto.
    + intros e H. by injection H.
  - destruct (fold_min_least rest x) as [Hin Hle].
    set (v0 := fold_left Z.min rest x) in *.
    apply Helem in Hin as [Hin0 Hv0].
    assert (Hle' : forall w, Some w ∈ args -> w <> 0%Z -> (v0 <= w)%Z).
    { intros w Hw Hw0. apply Hle, Helem. auto. }
    split; [| split].
    + intros v. split.
      * intros H. injection H as <-. auto.
      * intros (Hin & Hv & Hleast). f_equal.
        specialize (Hleast v0 Hin0 Hv0). specialize (Hle' v Hin Hv). lia.
    + split; [discriminate |].
      intros Hnone. specialize (Hnone _ Hin0). simpl in Hnone.
      apply negb_false_iff, Z.eqb_eq in Hnone. contradiction.
    + discriminate.
Qed.

(** ** Well-formed managers *)

Lemma process_each_dom (name : string) (args : Args) (ids : list nat)
    (h : gmap nat subscription) (id : nat) :
  is_Some (fst (process_each ids name args h) !! id) <-> is_Some (h !! id).
Proof.
  revert h. induction ids as [| j rest IH]; intros h; [reflexivity |].
  simpl. destruct (h !! j) as [s |] eqn:Hj; [| apply IH].
  assert (Hins : forall s', is_Some (<[j := s']> h !! id) <-> is_Some (h !! id)).
  { intros s'. destruct (decide (j = id)) as [-> | Hne].
    - rewrite lookup_insert_eq, Hj. split; eauto.
    - by rewrite lookup_insert_ne. }
  destruct (process s name args) as [s' [[] | e]]; simpl.
  - by rewrite IH.
  - apply Hins.
Qed.

Lemma well_formed_objects (m : EventMgr) (h : gmap nat subscription) :
  (forall id, is_Some (h !! id) <-> is_Some (objects m !! id)) ->
  well_formed m -> well_formed (with_objects h m).
Proof.
  intros Hdom (Hnd & Hlive & Hold). split; [exact Hnd |]. split; simpl.
  - intros id Hin. apply Hdom, Hlive, Hin.
  - intros id Hid. apply Hold, Hdom, Hid.
Qed.

Lemma well_formed_process_events (m : EventMgr) name args :
  well_formed m -> well_formed (fst (process_events m name args)).
Proof.
  intros Hwf. unfold process_events.
  pose proof (process_each_dom name args (event_list m) (objects m)) as Hdom.
  destruct (process_each (event_list m) name args (objects m)) as [h r].
  by apply well_formed_objects.
Qed.

Lemma well_formed_deliver (ds : list (string * Args)) (m : EventMgr) :
  well_formed m -> well_formed (deliver ds m).
Proof.
  revert m. induction ds as [| d ds IH]; intros m Hwf; [exact Hwf |].
  simpl. fold (deliver ds (fst (process_events m (fst d) (snd d)))).
  by apply IH, well_formed_process_events.
Qed.

Lemma well_formed_store (m : EventMgr) (id : nat) (s : subscription) :
  is_Some (objects m !! id) -> well_formed m -> well_formed (store id s m).
Proof.
  intros Hid. apply well_formed_objects. intros j.
  destruct (decide (id = j)) as [-> | Hne].
  - rewrite lookup_insert_eq. split; eauto.
  - by rewrite lookup_insert_ne.
Qed.

Lemma well_formed_store_loop (m : EventMgr) (id : nat) (l l' : _LoopMgr) :
  lookup_loop m id = Some l -> well_formed m -> well_formed (store id (SLoop l') m).
Proof.
  intros Hl. apply well_formed_store. unfold lookup_loop in Hl.
  destruct (objects m !! id); [eauto | discriminate].
Qed.

(** A constructor call followed by [append]: the new object is the last
    entry of the registry. *)
Lemma well_formed_register (m : EventMgr) (s : subscription) :
  well_formed m ->
  well_formed (append (next_id m) (fst (alloc s m))).
Proof.
  intros (Hnd & Hlive & Hold). split; [| split]; simpl.
  - apply NoDup_app. split; [exact Hnd |]. split; [| apply NoDup_singleton].
    intros id Hin Hnew. apply list_elem_of_singleton in Hnew as ->.
    specialize (Hold _ (Hlive _ Hin)). lia.
  - intros id Hin. apply elem_of_app in Hin as [Hin | Hin].
    + destruct (decide (next_id m = id)) as [-> | Hne].
      * rewrite lookup_insert_eq. eauto.
      * rewrite lookup_insert_ne by exact Hne. by apply Hlive.
    + apply list_elem_of_singleton in Hin as ->. rewrite lookup_insert_eq. eauto.
  - intros id Hid. destruct (decide (next_id m = id)) as [<- | Hne]; [lia |].
    rewrite lookup_insert_ne in Hid by exact Hne.
    specialize (Hold _ Hid). lia.
Qed.

Lemma list_remove_sound (x : nat) (l l' : list nat) :
  list_remove x l = Ok l' ->
  (forall y, y ∈ l' -> y ∈ l) /\ (NoDup l -> NoDup l' /\ x ∉ l').
Proof.
  revert l'. induction l as [| y l IH]; intros l' Hrm; [discriminate |].
  simpl in Hrm. destruct (Nat.eqb_spec y x) as [-> | Hne].
  - injection Hrm as <-. split.
    + intros z Hz. apply elem_of_cons. by right.
    + intros Hnd. apply NoDup_cons in Hnd as [Hx Hnd]. by split.
  - destruct (list_remove x l) as [r |] eqn:Hr; [| discriminate].
    injection Hrm as <-. destruct (IH r eq_refl) as [Hsub Hnd'].
    split.
    + intros z Hz. apply elem_of_cons in Hz as [-> | Hz];
        apply elem_of_cons; auto.
    + intros Hnd. apply NoDup_cons in Hnd as [Hy Hnd].
      destruct (Hnd' Hnd) as [Hndr Hxr]. split.
      * apply NoDup_cons. split; [| exact Hndr]. intros Hyr. auto.
      * intros Hx. apply elem_of_cons in Hx as [-> | Hx]; [congruence | auto].
Qed.

Lemma well_formed_event_list (m : EventMgr) (l : list nat) :
  NoDup l -> (forall y, y ∈ l -> y ∈ event_list m) ->
  well_formed m -> well_formed (with_event_list l m).
Proof.
  intros Hnd Hsub (_ & Hlive & Hold). split; [exact Hnd |].
  split; simpl; [| exact Hold]. intros id Hin. by apply Hlive, Hsub.
Qed.

Lemma well_formed_add_event (m : EventMgr) name chk :
  well_formed m -> well_formed (fst (add_event m name chk)).
Proof. apply well_formed_register. Qed.

Lemma well_formed_wait_for (m : EventMgr) name chk timeout (env : suspension) :
  well_formed m -> well_formed (fst (wait_for m name chk timeout env)).
Proof.
  intros Hwf. unfold wait_for.
  pose proof (well_formed_add_event m name chk Hwf) as Hwf1.
  destruct (add_event m name chk) as [m1 event]. simpl in Hwf1.
  pose proof (well_formed_deliver (during env) m1 Hwf1) as Hwf2.
  destruct (wake _ _ _); try exact Hwf2.
  destruct (list_remove event _) as [l |] eqn:Hrm; [| exact Hwf2].
  destruct (list_remove_sound _ _ _ Hrm) as [Hsub Hnd]. simpl.
  apply well_formed_event_list; [| exact Hsub | exact Hwf2].
  apply Hnd, Hwf2.
Qed.

Lemma well_formed_drain (m : EventMgr) (g : generator) (id : nat) :
  well_formed m -> well_formed (fst (fst (drain m g id))).
Proof.
  intros Hwf. unfold drain.
  destruct (lookup_loop m id) as [l |] eqn:Hl; [| exact Hwf].
  destruct (get_next l) as [l' [[item | []] |]]; simpl;
    by apply (well_formed_store_loop m id l).
Qed.

Lemma well_formed_on_timeout (m : EventMgr) (g : generator) (id : nat) :
  well_formed m -> well_formed (fst (fst (on_timeout m g id))).
Proof.
  intros Hwf. unfold on_timeout.
  destruct (lookup_loop m id) as [l |] eqn:Hl; [| exact Hwf].
  by apply well_formed_drain, (well_formed_store_loop m id l).
Qed.

Lemma well_formed_iteration (env : resumption) (m : EventMgr) (g : generator)
    (id : nat) :
  well_formed m -> well_formed (fst (fst (iteration env m g id))).
Proof.
  intros Hwf. unfold iteration.
  destruct (_lowest_value _) as [t | e]; [| exact Hwf].
  destruct (t <=? 0)%Z; [by apply well_formed_on_timeout |].
  destruct (lookup_loop m id) as [l |] eqn:Hl; [| exact Hwf].
  pose proof (fun l' => well_formed_store_loop m id l l' Hl Hwf) as Hstore.
  destruct (get_next l) as [l' [[item | e] |]]; try apply Hstore.
  set (m1 := deliver _ _).
  assert (Hwf1 : well_formed m1) by apply well_formed_deliver, Hstore.
  destruct (wake _ _ _); try exact Hwf1.
  - destruct (lookup_loop m1 id) as [l1 |] eqn:Hl1; [| exact Hwf1].
    destruct (get_next_resume l1) as [l2 [item | e]];
      by apply (well_formed_store_loop m1 id l1).
  - by apply well_formed_on_timeout.
Qed.

Lemma well_formed_anext (env : resumption) (m : EventMgr) (g : generator) :
  well_formed m -> well_formed (fst (fst (anext env m g))).
Proof.
  intros Hwf. unfold anext.
  destruct (pc g) as [| id start | id | id |]; try exact Hwf.
  - simpl. by apply well_formed_iteration, well_formed_register.
  - destruct (loop_timeout g) as [t |]; [| exact Hwf].
    destruct (_ <=? 0)%Z; [exact Hwf | by apply well_formed_iteration].
  - by apply well_formed_drain.
Qed.

Lemma well_formed_run (acts : list action) (m : EventMgr) (g : generator) :
  well_formed m -> well_formed (fst (fst (run acts m g))).
Proof.
  revert m g. induction acts as [| a acts IH]; intros m g Hwf; [exact Hwf |].
  destruct a as [name args | env |]; simpl.
  - by apply IH, well_formed_process_events.
  - pose proof (well_formed_anext env m g Hwf) as Hwf1.
    destruct (anext env m g) as [[m1 g1] r]. simpl in Hwf1.
    specialize (IH m1 g1 Hwf1). by destruct (run acts m1 g1) as [[m2 g2] rs].
  - by apply IH.
Qed.

Lemma well_formed_new : well_formed new_EventMgr.
Proof.
  split; [apply NoDup_nil_2 |]. split; simpl.
  - intros id Hin. by apply elem_of_nil in Hin.
  - intros id [s Hs]. by rewrite lookup_empty in Hs.
Qed.

(** Every operation of the manager keeps it well formed, starting from the
    empty one: [event_list] never holds the same waiter twice, never holds a
    reference to nothing, and a new waiter is never confused with an old
    one. *)
Theorem operations_keep_manager_well_formed :
  well_formed new_EventMgr /\
  forall (m : EventMgr),
    well_formed m ->
    (forall name chk, well_formed (fst (add_event m name chk))) /\
    (forall name args, well_formed (fst (process_events m name args))) /\
    (forall name chk timeout env,
        well_formed (fst (wait_for m name chk timeout env))) /\
    (forall g acts, well_formed (fst (fst (run acts m g)))).
Proof.
  split; [exact well_formed_new |].
  intros m Hwf. split; [| split; [| split]].
  {
    intros name chk. by apply well_formed_add_event. }
  - intros name args. by apply well_formed_process_events.
  - intros name chk timeout env. by apply well_formed_wait_for.
  - intros g acts. by apply well_formed_run.
Qed.

Lemma operations_keep_manager_well_formed_witness :
  let env := {| during := [("on_ready", [VInt 1])];
                deadline_first := false; cancel := false |} in
  let m := fst (wait_for (fst (add_event new_EventMgr "on_msg" None))
                  "on_ready" None (Some 3%Z) env) in
  well_formed m /\ event_list m = [0].
Proof.
  intros env m. split; [| vm_compute; reflexivity].
  destruct operations_keep_manager_well_formed as [Hnew Hkeep].
  apply Hkeep, Hkeep, Hnew.
Defined.

(** ** One waiter through a sequence of dispatches *)

(** What one call of [_LoopMgr.process] does to the fields. *)
Lemma LoopMgr_process_fields (l : _LoopMgr) name args :
  let l' := fst (LoopMgr_process l name args) in
  let hit := can_expand l && matching (lm_event_name l) (lm_check l) (name, args) in
  events l' = (if hit then events l ++ [args] else events l) /\
  wait l' = (if hit then true else wait l) /\
  lm_event_name l' = lm_event_name l /\ lm_check l' = lm_check l /\
  can_expand l' = can_expand l.
Proof.
  unfold LoopMgr_process, matches_event, matching. simpl.
  destruct (can_expand l) eqn:He; simpl; [| done].
  destruct (String.eqb (lm_event_name l) name); simpl; [| done].
  destruct (lm_check l) as [chk |] eqn:Hc; simpl; [| done].
  destruct (chk args) as [[|] | err]; simpl; done.
Qed.

Lemma accepted_app name chk (ds1 ds2 : list (string * Args)) :
  accepted name chk (ds1 ++ ds2) = accepted name chk ds1 ++ accepted name chk ds2.
Proof. unfold accepted. by rewrite List.filter_app, map_app. Qed.

Lemma accepted_cons name chk (d : string * Args) (ds : list (string * Args)) :
  accepted name chk (d :: ds) =
    (if matching name chk d then [snd d] else []) ++ accepted name chk ds.
Proof. unfold accepted. simpl. by destruct (matching name chk d). Qed.

(** An open [_LoopMgr] queues exactly the arguments of the dispatches that
    carry its name and pass its check, in the order of the dispatches, behind
    what it held; its flag is raised as soon as one is queued. A closed one
    keeps its queue and its flag. Neither is ever opened, closed or renamed
    by a dispatch. *)
Theorem LoopMgr_queues_matches_in_order :
  forall (l : _LoopMgr) (ds : list (string * Args)),
    let l' := LoopMgr_feed l ds in
    let got := accepted (lm_event_name l) (lm_check l) ds in
    events l' = (if can_expand l then events l ++ got else events l) /\
    wait l' = (if can_expand l then wait l || negb (bool_decide (got = []))
               else wait l) /\
    lm_event_name l' = lm_event_name l /\ lm_check l' = lm_check l /\
    can_expand l' = can_expand l.
Proof.
  intros l ds. revert l. cbv zeta.
  induction ds as [| [n a] ds IH]; intros l.
  - unfold LoopMgr_feed, accepted. simpl.
    destruct (can_expand l); rewrite ?app_nil_r, ?orb_false_r; done.
  - destruct (LoopMgr_process_fields l n a) as (Hq & Hw & Hn & Hc & He).
    destruct (IH (fst (LoopMgr_process l n a))) as (Hq' & Hw' & Hn' & Hc' & He').
    change (LoopMgr_feed l ((n, a) :: ds))
      with (LoopMgr_feed (fst (LoopMgr_process l n a)) ds).
    rewrite Hq', Hw', Hn', Hc', He', Hq, Hw, Hn, Hc, He, accepted_cons.
    destruct (can_expand l); simpl; [| done].
    destruct (matching (lm_event_name l) (lm_check l) (n, a)); simpl.
    + rewrite <- app_assoc. simpl. by rewrite orb_true_r.
    + done.
Qed.

(** What one call of [_DiscordEvent.process] does to the fields. *)
Lemma DiscordEvent_process_fields (e : _DiscordEvent) name args :
  let e' := fst (DiscordEvent_process e name args) in
  ev_is_set e' = ev_is_set e || matching (ev_event_name e) (ev_check e) (name, args) /\
  ev_return_value e' =
    (if String.eqb (ev_event_name e) name then Some args else ev_return_value e) /\
  ev_event_name e' = ev_event_name e /\ ev_check e' = ev_check e.
Proof.
  unfold DiscordEvent_process, matches_event, matching. simpl.
  destruct (String.eqb (ev_event_name e) name); simpl;
    [| by rewrite orb_false_r].
  destruct (ev_check e) as [chk |] eqn:Hc; simpl; [| by rewrite orb_true_r].
  destruct (chk args) as [[|] | err]; simpl;
    by rewrite ?orb_true_r, ?orb_false_r.
Qed.

(** A [_DiscordEvent] is set exactly when it was set before or one of the
    dispatches matched it, and nothing unsets it; its [return_value] is the
    arguments of the last dispatch that carried its name, whether or not the
    check accepted them, and the old value when there was none. *)
Theorem DiscordEvent_signal_and_capture :
  forall (e : _DiscordEvent) (ds : list (string * Args)),
    let e' := DiscordEvent_feed e ds in
    ev_is_set e' =
      ev_is_set e || existsb (matching (ev_event_name e) (ev_check e)) ds /\
    ev_return_value e' =
      match last_named (ev_event_name e) ds with
      | Some args => Some args
      | None => ev_return_value e
      end /\
    ev_event_name e' = ev_event_name e /\ ev_check e' = ev_check e.
Proof.
  intros e ds. revert e. cbv zeta.
  induction ds as [| [n a] ds IH]; intros e.
  - unfold DiscordEvent_feed, last_named. simpl. by rewrite orb_false_r.
  - destruct (DiscordEvent_process_fields e n a) as (Hs & Hr & Hn & Hc).
    destruct (IH (fst (DiscordEvent_process e n a))) as (Hs' & Hr' & Hn' & Hc').
    change (DiscordEvent_feed e ((n, a) :: ds))
      with (DiscordEvent_feed (fst (DiscordEvent_process e n a)) ds).
    rewrite Hs', Hr', Hn', Hc', Hs, Hr, Hn, Hc. simpl.
    rewrite orb_assoc. split; [reflexivity |]. split; [| done].
    unfold last_named. simpl.
    destruct (String.eqb (ev_event_name e) n); [| reflexivity].
    destruct (List.filter _ ds) as [| d' ds'] eqn:Hf; [reflexivity |].
    rewrite last_cons_cons, last_cons. by destruct (last ds').
Qed.

(** ** [wait_for]: when the waiter leaves the registry *)

Lemma well_formed_fresh (m : EventMgr) :
  well_formed m -> next_id m ∉ event_list m.
Proof.
  intros (_ & Hlive & Hold) Hin. specialize (Hold _ (Hlive _ Hin)). lia.
Qed.

(** [wait_for] takes its waiter out of the registry exactly when it returns
    a value. On every other way out (the timeout, a cancellation of the
    caller, which wins even over an event that already matched, or never
    being woken) the waiter stays the last entry of [event_list]. *)
Theorem wait_for_deregisters_only_on_return :
  forall (m : EventMgr) name chk timeout (env : suspension),
    well_formed m ->
    match snd (wait_for m name chk timeout env) with
    | Returned _ =>
        event_list (fst (wait_for m name chk timeout env)) = event_list m
    | _ =>
        event_list (fst (wait_for m name chk timeout env))
          = event_list m ++ [next_id m]
    end /\
    (cancel env = true ->
     snd (wait_for m name chk timeout env) = Failed CancelledError).
Proof.
  intros m name chk timeout env Hwf.
  pose proof (well_formed_fresh m Hwf) as Hfresh.
  unfold wait_for. rewrite add_event_spec.
  set (m1 := {| objects := _; next_id := _; event_list := _ |}).
  assert (Hl : event_list (deliver (during env) m1) = event_list m ++ [next_id m])
    by (by rewrite deliver_event_list).
  split.
  - destruct (wake _ _ _); simpl; try exact Hl.
    rewrite Hl, (list_remove_last _ _ Hfresh). reflexivity.
  - intros Hcancel. unfold wake. by rewrite Hcancel.
Qed.

Lemma wait_for_deregisters_only_on_return_witness :
  let env := {| during := [("on_ready", [VInt 1])];
                deadline_first := false; cancel := true |} in
  event_list (fst (wait_for new_EventMgr "on_ready" None None env)) = [0] /\
  snd (wait_for new_EventMgr "on_ready" None None env) = Failed CancelledError.
Proof.
  intros env.
  pose proof (wait_for_deregisters_only_on_return new_EventMgr "on_ready" None
                None env well_formed_new) as [Hl Hc].
  rewrite (Hc eq_refl) in Hl. split; [exact Hl | exact (Hc eq_refl)].
Defined.

(** ** [process_events]: what a dispatch leaves alone *)

Lemma process_identity (s : subscription) name args :
  let s' := fst (process s name args) in
  event_name s' = event_name s /\ check s' = check s /\
  listening s' = listening s /\
  (match s, s' with SEvent _, SEvent _ | SLoop _, SLoop _ => True | _, _ => False end).
Proof.
  destruct s as [e | l]; simpl.
  - destruct (DiscordEvent_process_fields e name args) as (_ & _ & Hn & Hc).
    by destruct (DiscordEvent_process e name args).
  - destruct (LoopMgr_process_fields l name args) as (_ & _ & Hn & Hc & He).
    by destruct (LoopMgr_process l name args).
Qed.

(** A dispatch registers nothing and removes nothing, makes no object and
    drops none, and never changes the class, the name, the check or the
    open/closed state of an object, whether it returns or raises. *)
Theorem process_events_changes_no_identity :
  forall (m : EventMgr) name args,
    let m' := fst (process_events m name args) in
    event_list m' = event_list m /\
    next_id m' = next_id m /\
    (forall id, objects m !! id = None -> objects m' !! id = None) /\
    (forall id s, objects m !! id = Some s ->
       exists s', objects m' !! id = Some s' /\
                  event_name s' = event_name s /\ check s' = check s /\
                  listening s' = listening s /\
                  match s, s' with
                  | SEvent _, SEvent _ | SLoop _, SLoop _ => True
                  | _, _ => False
                  end).
Proof.
  intros m name args m'. subst m'.
  rewrite process_events_event_list, process_events_next_id, process_events_objects.
  split; [reflexivity |]. split; [reflexivity |]. split.
  - intros id Hnone.
    destruct (fst (process_each _ name args (objects m)) !! id) eqn:Hs;
      [| reflexivity].
    assert (Hsome : is_Some (objects m !! id)).
    { apply (process_each_dom name args (event_list m)). by rewrite Hs. }
    rewrite Hnone in Hsome. by destruct Hsome.
  - intros id s Hs.
    apply (process_each_keeps name args
             (fun s0 => event_name s0 = event_name s /\ check s0 = check s /\
                        listening s0 = listening s /\
                        match s, s0 with
                        | SEvent _, SEvent _ | SLoop _, SLoop _ => True
                        | _, _ => False
                        end) _ _ id s); [| exact Hs | by destruct s].
    intros s0 (Hn & Hc & Hl & Hk).
    destruct (process_identity s0 name args) as (Hn' & Hc' & Hl' & Hk').
    repeat split; try congruence.
    destruct s, s0, (fst (process _ name args)); done.
Qed.

(** ** [loop_for]: the end of the sequence is final *)

Lemma drain_ends (m : EventMgr) (g : generator) (id : nat) :
  ends (snd (drain m g id)) = true -> pc (snd (fst (drain m g id))) = Finished.
Proof.
  unfold drain. destruct (lookup_loop m id) as [l |]; [| discriminate].
  destruct (get_next l) as [l' [[item | []] |]]; simpl; done.
Qed.

Lemma on_timeout_ends (m : EventMgr) (g : generator) (id : nat) :
  ends (snd (on_timeout m g id)) = true ->
  pc (snd (fst (on_timeout m g id))) = Finished.
Proof.
  unfold on_timeout. destruct (lookup_loop m id) as [l |]; [| discriminate].
  apply drain_ends.
Qed.

Lemma iteration_ends (env : resumption) (m : EventMgr) (g : generator) (id : nat) :
  ends (snd (iteration env m g id)) = true ->
  pc (snd (fst (iteration env m g id))) = Finished.
Proof.
  unfold iteration.
  destruct (_lowest_value _) as [t | e]; [| done].
  destruct (t <=? 0)%Z; [apply on_timeout_ends |].
  destruct (lookup_loop m id) as [l |]; [| discriminate].
  destruct (get_next l) as [l' [[item | e] |]]; try done.
  destruct (wake _ _ _); try done.
  - destruct (lookup_loop _ id) as [l1 |]; [| discriminate].
    destruct (get_next_resume l1) as [l2 [item | e]]; done.
  - apply on_timeout_ends.
Qed.

Lemma anext_ends (env : resumption) (m : EventMgr) (g : generator) :
  ends (snd (anext env m g)) = true -> pc (snd (fst (anext env m g))) = Finished.
Proof.
  unfold anext. destruct (pc g) as [| id start | id | id |] eqn:Hpc; simpl.
  - apply iteration_ends.
  - destruct (loop_timeout g) as [t |]; [| done].
    destruct (_ <=? 0)%Z; [done | apply iteration_ends].
  - apply drain_ends.
  - discriminate.
  - done.
Qed.

Lemma run_finished (acts : list action) (m : EventMgr) (g : generator) :
  pc g = Finished -> Forall (fun r => r = StopAsyncIteration) (snd (run acts m g)).
Proof.
  revert m g. induction acts as [| a acts IH]; intros m g Hpc; [constructor |].
  destruct a as [name args | env |]; simpl.
  - by apply IH.
  - unfold anext. rewrite Hpc. specialize (IH m g Hpc).
    destruct (run acts m g) as [[m2 g2] rs]. by constructor.
  - by apply IH.
Qed.

(** Once a request has been answered by [StopAsyncIteration] or by an
    exception, every later request is answered by [StopAsyncIteration]: the
    generator yields nothing after its end, whatever is dispatched. *)
Theorem loop_for_end_is_final :
  forall (acts : list action) (m : EventMgr) (g : generator)
         (before after : list gen_result) (r : gen_result),
    snd (run acts m g) = before ++ r :: after ->
    ends r = true ->
    Forall (fun r' => r' = StopAsyncIteration) after.
Proof.
  induction acts as [| a acts IH]; intros m g before after r Hrun Hend.
  - by destruct before.
  - destruct a as [name args | env |]; simpl in Hrun.
    + by eapply IH.
    + pose proof (anext_ends env m g) as Hfin.
      destruct (anext env m g) as [[m1 g1] r1]. simpl in Hfin.
      pose proof (run_finished acts m1 g1) as Hall.
      specialize (IH m1 g1).
      destruct (run acts m1 g1) as [[m2 g2] rs]. simpl in *.
      destruct before as [| r0 before]; simpl in Hrun.
      * injection Hrun as -> ->. auto.
      * injection Hrun as -> Hrs. by eapply IH.
    + pose proof (run_finished acts m (with_pc Finished g) eq_refl) as Hall.
      rewrite Hrun in Hall. apply Forall_app in Hall as [_ Hall].
      by apply Forall_cons in Hall as [_ Hall].
Qed.

Lemma loop_for_end_is_final_witness :
  let silence := {| clock_now := 0; clock_start := 0;
                    susp := {| during := []; deadline_first := false;
                               cancel := false |} |} in
  let arrival := {| clock_now := 1; clock_start := 1;
                    susp := {| during := [("on_msg", [VInt 1])];
                               deadline_first := false; cancel := false |} |} in
  let acts := [Next silence; Dispatch "on_msg" [VInt 2]; Next arrival] in
  let g := loop_for "on_msg" None None (Some 5%Z) in
  snd (run acts new_EventMgr g)
    = [Error (TimeoutError loop_timeout_msg); StopAsyncIteration] /\
  Forall (fun r' => r' = StopAsyncIteration) [StopAsyncIteration].
Proof.
  intros silence arrival acts g.
  assert (Hrun : snd (run acts new_EventMgr g)
                 = [] ++ Error (TimeoutError loop_timeout_msg) :: [StopAsyncIteration])
    by (vm_compute; reflexivity).
  split; [exact Hrun |].
  exact (loop_for_end_is_final acts new_EventMgr g [] [StopAsyncIteration]
           (Error (TimeoutError loop_timeout_msg)) Hrun eq_refl).
Defined.

(** ** [loop_for]: what is yielded, and in which order *)

(** In a registry without repetition an object is processed at most once by
    a dispatch. *)
Lemma process_each_once (name : string) (args : Args) (ids : list nat)
    (h : gmap nat subscription) (id : nat) (s : subscription) :
  NoDup ids -> h !! id = Some s ->
  fst (process_each ids name args h) !! id = Some s \/
  fst (process_each ids name args h) !! id = Some (fst (process s name args)).
Proof.
  revert h. induction ids as [| j rest IH]; intros h Hnd Hs; [by left |].
  apply NoDup_cons in Hnd as [Hj Hnd]. simpl.
  destruct (h !! j) as [sj |] eqn:Hsj; [| by apply IH].
  destruct (process sj name args) as [sj' r] eqn:Hp.
  destruct (decide (j = id)) as [-> | Hne].
  - right. rewrite Hs in Hsj. injection Hsj as <-. rewrite Hp. simpl.
    destruct r as [[] | e]; simpl.
    + rewrite process_each_not_visited by exact Hj. apply lookup_insert_eq.
    + apply lookup_insert_eq.
  - destruct r as [[] | e]; simpl.
    + apply IH; [exact Hnd | by rewrite lookup_insert_ne].
    + left. by rewrite lookup_insert_ne.
Qed.

Lemma process_events_loop (m : EventMgr) name args (id : nat) (l : _LoopMgr) :
  well_formed m -> lookup_loop m id = Some l ->
  exists l' extra,
    lookup_loop (fst (process_events m name args)) id = Some l' /\
    lm_event_name l' = lm_event_name l /\ lm_check l' = lm_check l /\
    events l' = events l ++ extra /\
    sublist extra (accepted (lm_event_name l) (lm_check l) [(name, args)]).
Proof.
  intros (Hnd & _ & _) Hl. unfold lookup_loop in *.
  rewrite process_events_objects.
  destruct (objects m !! id) as [[e | l0] |] eqn:Hs; try discriminate.
  injection Hl as ->.
  destruct (process_each_once name args (event_list m) (objects m) id
              (SLoop l) Hnd Hs) as [-> | ->].
  - exists l, []. rewrite app_nil_r. repeat split. apply sublist_nil_l.
  - simpl.
    destruct (LoopMgr_process_fields l name args) as (Hq & _ & Hn & Hc & _).
    destruct (LoopMgr_process l name args) as [l1 r]. simpl in *.
    unfold accepted. simpl.
    destruct (can_expand l); simpl in Hq.
    + destruct (matching (lm_event_name l) (lm_check l) (name, args)); simpl.
      * by exists l1, [args].
      * exists l1, []. rewrite app_nil_r. by repeat split.
    + exists l1, []. rewrite app_nil_r. repeat split; try done.
      apply sublist_nil_l.
Qed.

Lemma deliver_loop (ds : list (string * Args)) (m : EventMgr) (id : nat)
    (l : _LoopMgr) :
  well_formed m -> lookup_loop m id = Some l ->
  exists l' extra,
    lookup_loop (deliver ds m) id = Some l' /\
    lm_event_name l' = lm_event_name l /\ lm_check l' = lm_check l /\
    events l' = events l ++ extra /\
    sublist extra (accepted (lm_event_name l) (lm_check l) ds).
Proof.
  revert m l. induction ds as [| [n a] ds IH]; intros m l Hwf Hl.
  - exists l, []. rewrite app_nil_r. by repeat split.
  - destruct (process_events_loop m n a id l Hwf Hl)
      as (l1 & x1 & Hl1 & Hn1 & Hc1 & Hq1 & Hsub1).
    destruct (IH (fst (process_events m n a)) l1
                (well_formed_process_events m n a Hwf) Hl1)
      as (l2 & x2 & Hl2 & Hn2 & Hc2 & Hq2 & Hsub2).
    exists l2, (x1 ++ x2). split; [exact Hl2 |].
    split; [congruence |]. split; [congruence |].
    split; [by rewrite Hq2, Hq1, app_assoc |].
    change ((n, a) :: ds) with ([(n, a)] ++ ds). rewrite accepted_app.
    apply sublist_app; [exact Hsub1 |]. by rewrite <- Hn1, <- Hc1.
Qed.

Section Backlog.
Variables (name : string) (chk : CheckFunction).

Lemma step_ok_weaken (R : EventMgr * generator * gen_result) (src src' : list Args) :
  sublist src src' -> step_ok name chk R src -> step_ok name chk R src'.
Proof. intros Hsub (q & Hb & Hq). exists q. split; [exact Hb | by etrans]. Qed.

Lemma drain_step (m : EventMgr) (g : generator) (id : nat) (l : _LoopMgr) :
  lookup_loop m id = Some l -> lm_event_name l = name -> lm_check l = chk ->
  step_ok name chk (drain m g id) (events l).
Proof.
  intros Hl Hn Hc. unfold step_ok, drain, get_next, popleft. rewrite Hl.
  destruct (events l) as [| item rest] eqn:Hq.
  - destruct (can_expand l); simpl; by exists [].
  - simpl. exists rest. split; [| reflexivity].
    exists (lm_with_events rest l). by rewrite lookup_loop_store.
Qed.

Lemma on_timeout_step (m : EventMgr) (g : generator) (id : nat) (l : _LoopMgr) :
  lookup_loop m id = Some l -> lm_event_name l = name -> lm_check l = chk ->
  step_ok name chk (on_timeout m g id) (events l).
Proof.
  intros Hl Hn Hc. unfold on_timeout. rewrite Hl.
  apply (drain_step _ g id (lm_with_can_expand false l));
    [apply lookup_loop_store | exact Hn | exact Hc].
Qed.

Lemma iteration_step (env : resumption) (m : EventMgr) (g : generator)
    (id : nat) (l : _LoopMgr) :
  well_formed m ->
  lookup_loop m id = Some l -> lm_event_name l = name -> lm_check l = chk ->
  step_ok name chk (iteration env m g id)
    (events l ++ accepted name chk (during (susp env))).
Proof.
  intros Hwf Hl Hn Hc. unfold iteration.
  destruct (_lowest_value _) as [t | e];
    [| exists []; split; [done | apply sublist_nil_l]].
  destruct (t <=? 0)%Z.
  { eapply step_ok_weaken; [| by apply (on_timeout_step m g id l)].
    by apply sublist_inserts_r. }
  rewrite Hl. unfold get_next, popleft.
  destruct (events l) as [| item rest] eqn:Hq.
  - destruct (can_expand l); simpl;
      [| exists []; split; [done | apply sublist_nil_l]].
    set (m0 := store id (SLoop (lm_with_wait false l)) m).
    assert (Hwf0 : well_formed m0) by (by apply (well_formed_store_loop m id l)).
    destruct (deliver_loop (during (susp env)) m0 id (lm_with_wait false l) Hwf0
                (lookup_loop_store m id _))
      as (l1 & extra & Hl1 & Hn1 & Hc1 & Hq1 & Hsub).
    simpl in Hn1, Hc1, Hq1, Hsub. rewrite Hq in Hq1. simpl in Hq1.
    rewrite Hn, Hc in Hsub.
    set (m1 := deliver (during (susp env)) m0) in *.
    destruct (wake _ _ _).
    + rewrite Hl1. unfold get_next_resume, popleft.
      destruct (events l1) as [| x rest] eqn:Hq1'; simpl.
      * exists []. split; [done | apply sublist_nil_l].
      * exists rest. split; [| simpl; by rewrite Hq1].
        exists (lm_with_events rest l1). simpl. rewrite lookup_loop_store.
        repeat split; congruence.
    + eapply step_ok_weaken; [| apply (on_timeout_step m1 g id l1 Hl1)];
        [by rewrite Hq1 | congruence | congruence].
    + exists []. split; [done | apply sublist_nil_l].
    + exists []. split; [done | apply sublist_nil_l].
  - simpl. exists rest. split.
    + exists (lm_with_events rest l). simpl. by rewrite lookup_loop_store.
    + simpl. by apply sublist_skip, sublist_inserts_r.
Qed.

Lemma anext_step (env : resumption) (m : EventMgr) (g : generator) (q : list Args) :
  well_formed m -> backlog name chk m g q ->
  step_ok name chk (anext env m g)
    (q ++ accepted name chk (during (susp env))).
Proof.
  intros Hwf Hb. unfold backlog in Hb. unfold anext.
  destruct (pc g) as [| id start | id | id |] eqn:Hpc.
  - destruct Hb as (-> & Hn & Hc). simpl.
    apply (iteration_step env _ g (next_id m) (new_LoopMgr (g_event_name g) (g_check g))).
    + by apply well_formed_register.
    + unfold lookup_loop, append. simpl. by rewrite lookup_insert_eq.
    + exact Hn.
    + exact Hc.
  - destruct Hb as (l & Hl & Hn & Hc & <-).
    destruct (loop_timeout g) as [t |];
      [| exists []; split; [done | apply sublist_nil_l]].
    destruct (_ <=? 0)%Z; [exists []; split; [done | apply sublist_nil_l] |].
    by apply iteration_step.
  - destruct Hb as (l & Hl & Hn & Hc & <-).
    eapply step_ok_weaken; [| by apply (drain_step m g id l)].
    by apply sublist_inserts_r.
  - exists []. split; [simpl; unfold backlog; by rewrite Hpc | apply sublist_nil_l].
  - exists []. split; [simpl; unfold backlog; by rewrite Hpc | apply sublist_nil_l].
Qed.

Lemma backlog_dispatch (m : EventMgr) (g : generator) (q : list Args) n a :
  well_formed m -> backlog name chk m g q ->
  exists q', backlog name chk (fst (process_events m n a)) g q' /\
             sublist q' (q ++ accepted name chk [(n, a)]).
Proof.
  intros Hwf Hb. unfold backlog in *.
  assert (Hloop : forall id,
    (exists l, lookup_loop m id = Some l /\ lm_event_name l = name /\
               lm_check l = chk /\ events l = q) ->
    exists q', (exists l, lookup_loop (fst (process_events m n a)) id = Some l /\
                          lm_event_name l = name /\ lm_check l = chk /\
                          events l = q') /\
               sublist q' (q ++ accepted name chk [(n, a)])).
  { intros id (l & Hl & Hn & Hc & <-).
    destruct (process_events_loop m n a id l Hwf Hl)
      as (l1 & extra & Hl1 & Hn1 & Hc1 & Hq1 & Hsub).
    exists (events l1). split; [exists l1; repeat split; congruence |].
    rewrite Hq1. apply sublist_app; [reflexivity | congruence]. }
  destruct (pc g) as [| id start | id | id |]; auto.
  - exists q. split; [exact Hb | by apply sublist_inserts_r].
  - exists q. split; [exact Hb | by apply sublist_inserts_r].
  - exists q. split; [exact Hb | by apply sublist_inserts_r].
Qed.

Lemma yields_cons (r : gen_result) (rs : list gen_result) :
  yields (r :: rs) = yields [r] ++ yields rs.
Proof. unfold yields. simpl. by rewrite app_nil_r. Qed.

Lemma run_backlog (acts : list action) :
  forall (m : EventMgr) (g : generator) (q : list Args),
    well_formed m -> backlog name chk m g q ->
    sublist (yields (snd (run acts m g)))
            (q ++ accepted name chk (dispatched acts)).
Proof.
  induction acts as [| a acts IH]; intros m g q Hwf Hb; [apply sublist_nil_l |].
  change (dispatched (a :: acts))
    with (match a with
          | Dispatch n args => [(n, args)]
          | Next env => during (susp env)
          | Close => []
          end ++ dispatched acts).
  rewrite accepted_app, app_assoc.
  destruct a as [n args | env |]; simpl.
  - destruct (backlog_dispatch m g q n args Hwf Hb) as (q' & Hb' & Hsub).
    etrans; [apply (IH _ g q' (well_formed_process_events m n args Hwf) Hb') |].
    by apply sublist_app.
  - destruct (anext_step env m g q Hwf Hb) as (q' & Hb' & Hsub).
    pose proof (well_formed_anext env m g Hwf) as Hwf1.
    destruct (anext env m g) as [[m1 g1] r]. simpl in *.
    specialize (IH m1 g1 q' Hwf1 Hb').
    destruct (run acts m1 g1) as [[m2 g2] rs]. simpl in *.
    rewrite yields_cons.
    etrans; [apply sublist_app; [reflexivity | exact IH] |].
    rewrite app_assoc. by apply sublist_app.
  - etrans; [apply (IH m (with_pc Finished g) [] Hwf eq_refl) |].
    simpl. rewrite app_nil_r. by apply sublist_inserts_l.
Qed.
End Backlog.

(** The items a [loop_for] generator yields are, in this order, arguments
    of distinct dispatches that carried its name and passed its check: it
    never yields an item twice, never out of the order of arrival, and never
    one the check did not accept. *)
Theorem loop_for_yields_matches_in_order :
  forall (m : EventMgr) name chk it lt (acts : list action),
    well_formed m ->
    sublist (yields (snd (run acts m (loop_for name chk it lt))))
            (accepted name chk (dispatched acts)).
Proof.
  intros m name chk it lt acts Hwf.
  by apply (run_backlog name chk acts m (loop_for name chk it lt) [] Hwf).
Qed.

Lemma loop_for_yields_matches_in_order_witness :
  let at_ := fun t ds first =>
    Next {| clock_now := t; clock_start := t;
            susp := {| during := ds; deadline_first := first; cancel := false |} |} in
  let acts := [Dispatch "on_msg" [VInt 0];
               at_ 0%Z [("on_msg", [VInt 1]); ("on_x", [VInt 9]); ("on_msg", [VInt 2])] false;
               at_ 1%Z [] false;
               at_ 2%Z [] false;
               Dispatch "on_msg" [VInt 3]] in
  sublist (yields (snd (run acts new_EventMgr (loop_for "on_msg" None None (Some 5%Z)))))
          (accepted "on_msg" None (dispatched acts)).
Proof.
  intros at_ acts.
  exact (loop_for_yields_matches_in_order new_EventMgr "on_msg" None None
           (Some 5%Z) acts well_formed_new).
Defined.

(** The run of the witness above: the event dispatched before the first
    request and the one dispatched after the timeout are not yielded. *)
Example loop_for_yields_example :
  let at_ := fun t ds first =>
    Next {| clock_now := t; clock_start := t;
            susp := {| during := ds; deadline_first := first; cancel := false |} |} in
  let acts := [Dispatch "on_msg" [VInt 0];
               at_ 0%Z [("on_msg", [VInt 1]); ("on_x", [VInt 9]); ("on_msg", [VInt 2])] false;
               at_ 1%Z [] false;
               at_ 2%Z [] false;
               Dispatch "on_msg" [VInt 3]] in
  yields (snd (run acts new_EventMgr (loop_for "on_msg" None None (Some 5%Z))))
    = [[VInt 1]; [VInt 2]] /\
  accepted "on_msg" None (dispatched acts)
    = [[VInt 0]; [VInt 1]; [VInt 2]; [VInt 3]].
Proof. vm_compute. split; reflexivity. Qed.

(** ** Channel types and channel classes *)

Lemma ChannelType_value_inj (t t' : ChannelType) :
  ChannelType_value t = ChannelType_value t' -> t = t'.
Proof. destruct t, t'; simpl; intros H; first [reflexivity | discriminate H]. Qed.

Lemma ChannelType_members_spec (version : Z) (t : ChannelType) :
  t ∈ ChannelType_members version <->
  (t ∈ [GUILD_NEWS_THREAD; GUILD_PUBLIC_THREAD; GUILD_PRIVATE_THREAD] ->
   (9 <= version)%Z).
Proof.
  unfold ChannelType_members.
  destruct (Z.leb_spec 9 version) as [Hv | Hv]; split.
  - auto.
  - intros _. apply list_elem_of_In. destruct t; simpl; tauto.
  - intros Hin Hthread. exfalso.
    apply list_elem_of_In in Hin. apply list_elem_of_In in Hthread.
    simpl in Hin, Hthread.
    destruct Hthread as [<- | [<- | [<- | []]]];
      repeat (destruct Hin as [Hin | Hin]; [discriminate Hin |]); exact Hin.
  - intros Himp. apply list_elem_of_In.
    destruct t; simpl; try tauto; exfalso;
      cut (9 <= version)%Z; try lia; apply Himp, list_elem_of_In; simpl; tauto.
Qed.

Lemma ChannelType_call_spec (version : Z) (v : value) (t : ChannelType) :
  ChannelType_call version v = Ok t <->
  t ∈ ChannelType_members version /\ v = VInt (ChannelType_value t).
Proof.
  unfold ChannelType_call. split.
  - destruct v as [| n | s]; try discriminate.
    destruct (List.find _ _) as [t' |] eqn:Hfind; [| discriminate].
    intros H. injection H as <-.
    apply List.find_some in Hfind as [Hin Heq].
    apply Z.eqb_eq in Heq. split; [by apply list_elem_of_In | congruence].
  - intros [Hin ->].
    destruct (List.find _ _) as [t' |] eqn:Hfind.
    + apply List.find_some in Hfind as [_ Heq]. apply Z.eqb_eq in Heq.
      f_equal. by apply ChannelType_value_inj.
    + apply list_elem_of_In in Hin.
      pose proof (List.find_none _ _ Hfind t Hin) as Hno. simpl in Hno.
      by rewrite Z.eqb_refl in Hno.
Qed.

(** [ChannelType(v)] is the inverse of taking the value of a member: it
    gives [t] exactly when [t] is a member and [v] is its number, and raises
    [ValueError], nothing else, on any other argument. No two members share a
    number. The three thread types are members exactly when the gateway
    version is at least 9. *)
Theorem ChannelType_call_inverts_value :
  forall (version : Z),
    (forall v t, ChannelType_call version v = Ok t <->
                 t ∈ ChannelType_members version /\ v = VInt (ChannelType_value t)) /\
    (forall v e, ChannelType_call version v = Raise e -> e = ValueError) /\
    (forall t t', ChannelType_value t = ChannelType_value t' -> t = t') /\
    (forall t, t ∈ ChannelType_members version <->
               (t ∈ [GUILD_NEWS_THREAD; GUILD_PUBLIC_THREAD; GUILD_PRIVATE_THREAD] ->
                (9 <= version)%Z)).
Proof.
  intros version. split; [apply ChannelType_call_spec |].
  split; [| split; [apply ChannelType_value_inj | apply ChannelType_members_spec]].
  intros v e. unfold ChannelType_call.
  destruct v as [| n | s]; try (intros H; by injection H).
  destruct (List.find _ _); [discriminate | intros H; by injection H].
Qed.

Lemma member_type_number (version : Z) (t : ChannelType) :
  t ∈ ChannelType_members version -> type_number version (ChannelType_value t).
Proof.
  intros Hin. pose proof (proj1 (ChannelType_members_spec version t) Hin) as Hv.
  unfold type_number.
  destruct t; simpl;
    try (left; apply list_elem_of_In; simpl; tauto);
    right; (split; [apply Hv, list_elem_of_In; simpl; tauto
                   | apply list_elem_of_In; simpl; tauto]).
Qed.

Lemma type_number_member (version n : Z) :
  type_number version n ->
  exists t, t ∈ ChannelType_members version /\ n = ChannelType_value t.
Proof.
  intros [Hin | [Hv Hin]]; apply list_elem_of_In in Hin; simpl in Hin.
  - assert (Hmem : forall t,
              ~ t ∈ [GUILD_NEWS_THREAD; GUILD_PUBLIC_THREAD; GUILD_PRIVATE_THREAD] ->
              t ∈ ChannelType_members version).
    { intros t Hno. apply ChannelType_members_spec. intros Hth. contradiction. }
    assert (Hnot : forall t, ChannelType_value t ∈ [0; 1; 2; 3; 4; 5; 6; 13]%Z ->
              ~ t ∈ [GUILD_NEWS_THREAD; GUILD_PUBLIC_THREAD; GUILD_PRIVATE_THREAD]).
    { intros t Ht Hth. apply list_elem_of_In in Ht, Hth. simpl in Ht, Hth.
      destruct Hth as [<- | [<- | [<- | []]]]; simpl in Ht;
        repeat (destruct Ht as [Ht | Ht]; [discriminate Ht |]); exact Ht. }
    assert (Hpick : forall t, n = ChannelType_value t ->
              exists t', t' ∈ ChannelType_members version /\ n = ChannelType_value t').
    { intros t ->. exists t. split; [| reflexivity].
      apply Hmem, Hnot, list_elem_of_In. simpl. tauto. }
    destruct Hin as [<- | [<- | [<- | [<- | [<- | [<- | [<- | [<- | []]]]]]]]].
    + by apply (Hpick GUILD_TEXT).
    + by apply (Hpick DM).
    + by apply (Hpick GUILD_VOICE).
    + by apply (Hpick GROUP_DM).
    + by apply (Hpick GUILD_CATEGORY).
    + by apply (Hpick GUILD_NEWS).
    + by apply (Hpick GUILD_STORE).
    + by apply (Hpick GUILD_STAGE_VOICE).
  - assert (Hmem : forall t, t ∈ ChannelType_members version).
    { intros t. apply ChannelType_members_spec. intros _. exact Hv. }
    destruct Hin as [<- | [<- | [<- | []]]].
    + by exists GUILD_NEWS_THREAD.
    + by exists GUILD_PUBLIC_THREAD.
    + by exists GUILD_PRIVATE_THREAD.
Qed.

(** Which class [from_id] and [edit] build from an answer, by the number
    under ["type"]: [TextChannel] for 0, [VoiceChannel] for 2,
    [CategoryChannel] for 4, [NewsChannel] for 5, plain [Channel] for every
    other number of a channel type (the thread types only from gateway
    version 9 on). An answer that is empty or has no ["type"] ends in
    [KeyError], any other value under ["type"] in [ValueError]. *)
Theorem channel_cls_by_number :
  forall (version : Z),
    channel_cls version None = KeyError "type" /\
    (forall data, data !! "type" = None ->
       channel_cls version (Some data) = KeyError "type") /\
    (forall data n, data !! "type" = Some (VInt n) ->
       type_number version n ->
       channel_cls version (Some data) =
         Selected (match n with
                   | 0 => TextChannel
                   | 2 => VoiceChannel
                   | 4 => CategoryChannel
                   | 5 => NewsChannel
                   | _ => Channel
                   end%Z)) /\
    (forall data v, data !! "type" = Some v ->
       (forall n, v = VInt n -> ~ type_number version n) ->
       channel_cls version (Some data) = NotAChannelType v).
Proof.
  intros version. unfold channel_cls. simpl.
  split; [by rewrite lookup_empty |].
  split; [by intros data -> |]. split.
  - intros data n -> Hn.
    destruct (type_number_member version n Hn) as (t & Hin & ->).
    rewrite (proj2 (ChannelType_call_spec version _ t) (conj Hin eq_refl)).
    by destruct t.
  - intros data v -> Hbad.
    destruct (ChannelType_call version v) as [t | e] eqn:Hcall; [| reflexivity].
    apply ChannelType_call_spec in Hcall as [Hin ->].
    exfalso. by apply (Hbad _ eq_refl), member_type_number.
Qed.

Lemma channel_cls_by_number_witness :
  channel_cls 9 (Some {[ "type" := VInt 5; "id" := VStr "42" ]})
    = Selected NewsChannel /\
  channel_cls 8 (Some {[ "type" := VInt 11; "id" := VStr "42" ]})
    = NotAChannelType (VInt 11).
Proof.
  split.
  - refine (proj1 (proj2 (proj2 (channel_cls_by_number 9))) _ 5%Z _ _).
    + vm_compute. reflexivity.
    + left. apply list_elem_of_In. simpl. tauto.
  - refine (proj2 (proj2 (proj2 (channel_cls_by_number 8))) _ (VInt 11) _ _).
    + vm_compute. reflexivity.
    + intros n H. injection H as <-. intros [Hin | [Hv _]]; [| lia].
      apply list_elem_of_In in Hin. simpl in Hin.
      repeat (destruct Hin as [Hin | Hin]; [discriminate Hin |]). exact Hin.
Defined.

(** ** [loop_for]: the exceptions that can come out *)

Lemma wake_with_deadline (t : Z) (flag : bool) (env : suspension) :
  wake (Some t) flag env = Cancelled \/ wake (Some t) flag env = TimedOut \/
  (wake (Some t) flag env = Signalled /\ flag = true).
Proof.
  unfold wake. destruct (cancel env); [by left | right].
  destruct (t <=? 0)%Z, (deadline_first env), flag; simpl; auto.
Qed.

Lemma lowest_value_raises (args : list (option Z)) (e : exn) :
  _lowest_value args = Raise e -> e = ValueError.
Proof.
  unfold _lowest_value, py_min.
  destruct (truthy_values args); [intros H; by injection H | discriminate].
Qed.

Lemma announced_process (s : subscription) name args :
  announced s -> announced (fst (process s name args)).
Proof.
  intros (l & -> & Hopen & Hflag). simpl.
  destruct (LoopMgr_process_fields l name args) as (Hq & Hw & _ & _ & He).
  destruct (LoopMgr_process l name args) as [l1 r]. simpl in *.
  exists l1. split; [reflexivity |]. split; [congruence |].
  rewrite Hq, Hw, Hopen. simpl.
  destruct (matching _ _ _); [intros _; by destruct (events l) | exact Hflag].
Qed.

Lemma deliver_closed_flag (ds : list (string * Args)) (m : EventMgr) (id : nat)
    (l : _LoopMgr) (b : bool) :
  lookup_loop m id = Some l -> can_expand l = b ->
  exists l', lookup_loop (deliver ds m) id = Some l' /\ can_expand l' = b.
Proof.
  intros Hl Hb. unfold lookup_loop in *.
  destruct (objects m !! id) as [[e | l0] |] eqn:Hs; try discriminate.
  injection Hl as ->.
  destruct (deliver_keeps (fun s => exists l, s = SLoop l /\ can_expand l = b)
              ds m id (SLoop l)) as (s' & Hs' & l' & -> & Hb');
    [| exact Hs | by exists l | exists l'; by rewrite Hs'].
  apply Forall_forall. intros d _ s (l1 & -> & Hb1). simpl.
  destruct (LoopMgr_process_fields l1 (fst d) (snd d)) as (_ & _ & _ & _ & He).
  destruct (LoopMgr_process l1 (fst d) (snd d)) as [l2 r]. simpl in *.
  exists l2. split; [reflexivity | congruence].
Qed.

Lemma drain_settled (m : EventMgr) (g : generator) (id : nat) (l : _LoopMgr) :
  lookup_loop m id = Some l -> can_expand l = false ->
  expected (snd (drain m g id)) /\
  settled (fst (fst (drain m g id))) (snd (fst (drain m g id))).
Proof.
  intros Hl Hc. unfold drain. rewrite Hl, (get_next_closed l Hc).
  destruct (events l) as [| item rest]; simpl; [done |].
  split; [done |]. unfold settled. simpl.
  exists (lm_with_events rest l). by rewrite lookup_loop_store.
Qed.

Lemma on_timeout_settled (m : EventMgr) (g : generator) (id : nat) (l : _LoopMgr) :
  lookup_loop m id = Some l ->
  expected (snd (on_timeout m g id)) /\
  settled (fst (fst (on_timeout m g id))) (snd (fst (on_timeout m g id))).
Proof.
  intros Hl. unfold on_timeout. rewrite Hl.
  apply (drain_settled _ g id (lm_with_can_expand false l));
    [apply lookup_loop_store | reflexivity].
Qed.

Lemma iteration_settled (env : resumption) (m : EventMgr) (g : generator)
    (id : nat) (l : _LoopMgr) :
  lookup_loop m id = Some l -> can_expand l = true ->
  expected (snd (iteration env m g id)) /\
  settled (fst (fst (iteration env m g id))) (snd (fst (iteration env m g id))).
Proof.
  intros Hl Hopen. unfold iteration.
  destruct (_lowest_value _) as [t | e] eqn:Hlow.
  2: { apply lowest_value_raises in Hlow as ->. by split. }
  destruct (t <=? 0)%Z; [by apply (on_timeout_settled m g id l) |].
  rewrite Hl. unfold get_next, popleft.
  destruct (events l) as [| item rest] eqn:Hq.
  - rewrite Hopen. simpl.
    set (m0 := store id (SLoop (lm_with_wait false l)) m).
    assert (Hs0 : objects m0 !! id = Some (SLoop (lm_with_wait false l))).
    { unfold m0, store. simpl. apply lookup_insert_eq. }
    assert (Hkeep : Forall (fun d => forall s, announced s ->
                       announced (fst (process s (fst d) (snd d))))
                      (during (susp env))).
    { apply Forall_forall. intros d _ s. apply announced_process. }
    assert (Hann : announced (SLoop (lm_with_wait false l))).
    { exists (lm_with_wait false l). repeat split; [exact Hopen |]. discriminate. }
    destruct (deliver_keeps announced (during (susp env)) m0 id _ Hkeep Hs0 Hann)
      as (s1 & Hs1 & l1 & -> & Hopen1 & Hflag1).
    set (m1 := deliver (during (susp env)) m0) in *.
    assert (Hl1 : lookup_loop m1 id = Some l1) by (unfold lookup_loop; by rewrite Hs1).
    destruct (wake_with_deadline t (wait_at m1 id) (susp env))
      as [-> | [-> | [-> Hflag]]].
    + by split.
    + by apply (on_timeout_settled m1 g id l1).
    + rewrite Hl1. unfold wait_at in Hflag. rewrite Hl1 in Hflag.
      unfold get_next_resume, popleft.
      destruct (events l1) as [| x rest] eqn:Hq1; [by destruct (Hflag1 Hflag) |].
      simpl. split; [done |]. unfold settled. simpl.
      exists (lm_with_events rest l1). by rewrite lookup_loop_store.
  - simpl. split; [done |]. unfold settled. simpl.
    exists (lm_with_events rest l). by rewrite lookup_loop_store.
Qed.

Lemma anext_settled (env : resumption) (m : EventMgr) (g : generator) :
  settled m g ->
  expected (snd (anext env m g)) /\
  settled (fst (fst (anext env m g))) (snd (fst (anext env m g))).
Proof.
  unfold settled at 1. unfold anext.
  destruct (pc g) as [| id start | id | id |] eqn:Hpc; intros Hs.
  - simpl. apply (iteration_settled env _ g _ (new_LoopMgr (g_event_name g) (g_check g)));
      [| reflexivity].
    unfold lookup_loop, append. simpl. by rewrite lookup_insert_eq.
  - destruct Hs as (l & Hl & Hopen).
    destruct (loop_timeout g) as [t |]; [| by split].
    destruct (_ <=? 0)%Z; [by split | by apply (iteration_settled env m _ id l)].
  - destruct Hs as (l & Hl & Hc). by apply (drain_settled m g id l).
  - contradiction.
  - split; [done |]. simpl. unfold settled. by rewrite Hpc.
Qed.

Lemma settled_dispatch (m : EventMgr) (g : generator) name args :
  settled m g -> settled (fst (process_events m name args)) g.
Proof.
  unfold settled. destruct (pc g) as [| id start | id | id |]; try done.
  - intros (l & Hl & Hb). by apply (deliver_closed_flag [(name, args)] m id l true).
  - intros (l & Hl & Hb). by apply (deliver_closed_flag [(name, args)] m id l false).
Qed.

Lemma run_settled (acts : list action) (m : EventMgr) (g : generator) :
  settled m g -> Forall expected (snd (run acts m g)).
Proof.
  revert m g. induction acts as [| a acts IH]; intros m g Hs; [constructor |].
  destruct a as [name args | env |]; simpl.
  - by apply IH, settled_dispatch.
  - destruct (anext_settled env m g Hs) as [Hr Hs1].
    destruct (anext env m g) as [[m1 g1] r]. simpl in *.
    specialize (IH m1 g1 Hs1).
    destruct (run acts m1 g1) as [[m2 g2] rs]. by constructor.
  - by apply IH.
Qed.

(** Whatever the consumer and the event source do, a request to a
    [loop_for] generator is answered by an item, by the end of the sequence,
    or by one of four exceptions: the [TimeoutError] of the loop, the
    [ValueError] or [TypeError] of absent bounds, or the caller's own
    [CancelledError]. [LoopEmptyError] and the [IndexError] of an empty deque
    never come out, and no request is left waiting without a deadline. *)
Theorem loop_for_answers :
  forall (m : EventMgr) name chk it lt (acts : list action),
    Forall expected (snd (run acts m (loop_for name chk it lt))).
Proof. intros m name chk it lt acts. by apply run_settled. Qed.
